(** * qcsys devices: Fluxonium and SingleChargeTransmon

    A shallow embedding of [qcsys/devices/fluxonium.py] and
    [qcsys/devices/transmon_single_charge_basis.py].

    Conventions of the embedding.
    - float64 scalars are idealised as real numbers [R]; complex128 scalars as
      pairs of reals.  Rounding is therefore outside the model: every equation
      below is an equation of exact arithmetic.  The one exception is the
      module [Binary64], which evaluates the two zero-point fluctuations of the
      fluxonium on binary64 numbers to show where rounding is visible.
    - arrays are row-major nested lists.
    - Python exceptions are values of [exception]; a method that may raise
      returns a [result].
    - truncation sizes ([N], [N_pre_diag], [N_max_charge]) are counts and are
      natural numbers.
    - the parameter dict [self.params] is a finite map from key strings to
      reals, so that a missing key raises [KeyError] as in Python.
    - [jaxquantum] and the base classes of [qcsys.devices.base] are not part
      of the two files; what the methods need from them is modelled next to
      its first use and marked as such. *)

From Stdlib Require Import PrimFloat SpecFloat FloatOps.
From Stdlib Require Import Reals Lra Lia ZArith List.
From stdpp Require Import base gmap strings list.
Import ListNotations.

Local Open Scope R_scope.

(** ** Exceptions and results *)

Inductive exception : Type :=
  | AssertionError
  | KeyError (key : string)
  | TypeError (msg : string)
  | NotImplementedError (msg : string).

Inductive result (A : Type) : Type :=
  | Ok (a : A)
  | Raise (e : exception).
Arguments Ok {A} a.
Arguments Raise {A} e.

#[global] Instance result_ret : MRet result := fun _ a => Ok a.
#[global] Instance result_bind : MBind result := fun _ _ f m =>
  match m with
  | Ok a => f a
  | Raise e => Raise e
  end.

(** [d[key]] on a Python dict. *)
Definition getitem (d : gmap string R) (key : string) : result R :=
  match d !! key with
  | Some v => Ok v
  | None => Raise (KeyError key)
  end.

(** [assert b]. *)
Definition assert (b : bool) : result unit :=
  if b then Ok tt else Raise AssertionError.

(** The two builtins that the source applies to arguments.  [NotImplemented]
    is the singleton constant (not callable); [NotImplementedError] is the
    exception class. *)
Inductive builtin : Type :=
  | NotImplemented
  | NotImplementedError_class.

(** [f(msg)]: calling a builtin object with one string argument. *)
Definition call (f : builtin) (msg : string) : result exception :=
  match f with
  | NotImplemented =>
      Raise (TypeError "'NotImplementedType' object is not callable")
  | NotImplementedError_class => Ok (NotImplementedError msg)
  end.

(** [raise e]: the operand is evaluated first; if that evaluation raises, its
    exception propagates. *)
Definition raise {A : Type} (e : result exception) : result A :=
  match e with
  | Ok ex => Raise ex
  | Raise ex => Raise ex
  end.

(** ** Complex scalars *)

Definition C : Type := (R * R)%type.

Definition RtoC (x : R) : C := (x, 0).
Definition Ci : C := (0, 1).
Definition Cadd (z w : C) : C := (fst z + fst w, snd z + snd w).
Definition Csub (z w : C) : C := (fst z - fst w, snd z - snd w).
Definition Cmul (z w : C) : C :=
  (fst z * fst w - snd z * snd w, fst z * snd w + snd z * fst w).
Definition Cconj (z : C) : C := (fst z, - snd z).
(** [z / x] for a real divisor [x]. *)
Definition Cdiv_real (z : C) (x : R) : C := (fst z / x, snd z / x).

(** ** Scalars of an array: the dtypes int, float64 and complex128 *)

Class Scalar (A : Type) : Type := {
  zero : A;
  one : A;
  add : A -> A -> A;
  sub : A -> A -> A;
  mul : A -> A -> A;
  conj : A -> A
}.

#[global] Instance Z_scalar : Scalar Z :=
  {| zero := 0%Z; one := 1%Z; add := Z.add; sub := Z.sub; mul := Z.mul;
     conj := fun x => x |}.
#[global] Instance R_scalar : Scalar R :=
  {| zero := 0; one := 1; add := Rplus; sub := Rminus; mul := Rmult;
     conj := fun x => x |}.
#[global] Instance C_scalar : Scalar C :=
  {| zero := RtoC 0; one := RtoC 1; add := Cadd; sub := Csub; mul := Cmul;
     conj := Cconj |}.

(** The laws of exact arithmetic that the proofs use. *)
Class ScalarLaws (A : Type) `{Scalar A} : Prop := {
  add_zero_l : forall x : A, add zero x = x;
  add_zero_r : forall x : A, add x zero = x;
  mul_zero_l : forall x : A, mul zero x = zero;
  mul_one_l : forall x : A, mul one x = x;
  mul_comm : forall x y : A, mul x y = mul y x;
  conj_zero : conj (zero : A) = zero;
  conj_one : conj (one : A) = one;
  conj_add : forall x y : A, conj (add x y) = add (conj x) (conj y);
  conj_sub : forall x y : A, conj (sub x y) = sub (conj x) (conj y);
  conj_mul : forall x y : A, conj (mul x y) = mul (conj x) (conj y);
  conj_conj : forall x : A, conj (conj x) = x
}.

(** ** Arrays *)

Definition vector (A : Type) : Type := list A.
Definition matrix (A : Type) : Type := list (list A).

Section Arrays.
Context {A : Type} `{Scalar A}.

Definition nrows (M : matrix A) : nat := length M.
Definition ncols (M : matrix A) : nat := length (hd [] M).

(** [M[i, j]] *)
Definition entry (M : matrix A) (i j : nat) : A := nth j (nth i M []) zero.

(** [M[:, j]] *)
Definition col (j : nat) (M : matrix A) : vector A :=
  map (fun r => nth j r zero) M.

(** The [n] by [m] array whose [(i, j)] element is [f i j]. *)
Definition tabulate (n m : nat) (f : nat -> nat -> A) : matrix A :=
  map (fun i => map (f i) (seq 0 m)) (seq 0 n).

(** [M] is a rectangular array of shape [(n, m)]. *)
Definition shape (M : matrix A) (n m : nat) : Prop :=
  length M = n /\ Forall (fun r => length r = m) M.

(** [jnp.ones(n)] *)
Definition ones (n : nat) : vector A := repeat one n.

(** [jnp.eye(n, k=k)]: ones on the [k]-th diagonal, [M[i, i+k] = 1]. *)
Definition eye (n : nat) (k : Z) : matrix A :=
  tabulate n n (fun i j =>
    if (Z.of_nat j =? Z.of_nat i + k)%Z then one else zero).

(** [jnp.diag(v)] for a one-dimensional [v]. *)
Definition diag (v : vector A) : matrix A :=
  tabulate (length v) (length v) (fun i j =>
    if (i =? j)%nat then nth i v zero else zero).

(** Elementwise [u + v], [u - v], [u * v] and [c * u] on vectors. *)
Definition vadd (u v : vector A) : vector A := zip_with add u v.
Definition vsub (u v : vector A) : vector A := zip_with sub u v.
Definition vmul (u v : vector A) : vector A := zip_with mul u v.
Definition vscale (c : A) (u : vector A) : vector A := map (mul c) u.

(** Elementwise [M + P], [M - P] and [c * M] on matrices of one shape. *)
Definition madd (M P : matrix A) : matrix A := zip_with vadd M P.
Definition msub (M P : matrix A) : matrix A := zip_with vsub M P.
Definition mscale (c : A) (M : matrix A) : matrix A := map (vscale c) M.

(** [sum(u * v)] *)
Definition dot_vec (u v : vector A) : A := fold_right add zero (vmul u v).

(** [sum(f(l) * g(l) for l in range(k))], the sum behind [dot_vec] when
    both vectors are given by their entries. *)
Definition sum_prod (k : nat) (f g : nat -> A) : A :=
  fold_right add zero (map (fun l => mul (f l) (g l)) (seq 0 k)).

(** [M @ P] for conformable operands. *)
Definition matmul (M P : matrix A) : matrix A :=
  map (fun r => map (fun j => dot_vec r (col j P)) (seq 0 (ncols P))) M.

(** [M.transpose()] and [jnp.conjugate(M)]. *)
Definition transpose (M : matrix A) : matrix A :=
  map (fun j => col j M) (seq 0 (ncols M)).
Definition conjugate (M : matrix A) : matrix A := map (map conj) M.

(** [M[:, :n]] *)
Definition take_cols (n : nat) (M : matrix A) : matrix A := map (firstn n) M.

(** [jnp.dot(M, P)] on two-dimensional operands: the contracting dimensions
    must agree.  A nested list without rows carries no column count, so an
    [M] of shape [(0, k)] is taken to be conformable. *)
Definition dot (M P : matrix A) : result (matrix A) :=
  if ((nrows M =? 0) || (ncols M =? nrows P))%nat then Ok (matmul M P)
  else Raise (TypeError
    "dot_general requires contracting dimensions to have the same shape").

(** A matrix is Hermitian when it equals its conjugate transpose. *)
Definition Hermitian (M : matrix A) : Prop := conjugate (transpose M) = M.

(** [conj(u) . v], the inner product of two columns. *)
Definition vdot (u v : vector A) : A := dot_vec (map conj u) v.

(** The columns of [V] are orthonormal. *)
Definition orthonormal_columns (V : matrix A) : Prop :=
  forall i j : nat, (i < ncols V)%nat -> (j < ncols V)%nat ->
    vdot (col i V) (col j V) = if (i =? j)%nat then one else zero.
End Arrays.

(** [jnp.arange(lo, hi)] on integers. *)
Definition arange (lo hi : Z) : vector Z :=
  map (fun k => (lo + Z.of_nat k)%Z) (seq 0 (Z.to_nat (hi - lo))).

(** dtype promotion: int to float64, float64 to complex128. *)
Definition to_float (v : vector Z) : vector R := map IZR v.
Definition to_complex (M : matrix R) : matrix C := map (map RtoC) M.

(** [x ** y] on floats with a positive base [x].  A non-positive base (where
    Python gives [0.0], a complex number or [nan]) is outside this real-valued
    model, and so is [jnp.sqrt] of a negative number: the properties of the
    fluxonium below assume positive [Ec] and [El], the precondition that the
    class documents. *)
Definition float_pow (x y : R) : R := Rpower x y.

(** ** The numerics collaborator (jaxquantum)

    The operator builders below follow the library's documented meaning: for a
    truncation [n], [n] by [n] matrices in the number basis, with
    [a[k, k+1] = sqrt(k+1)] and [a_dag] its transpose.  Operators are complex
    arrays. *)

Definition identity (n : nat) : matrix C := eye n 0.

Definition destroy (n : nat) : matrix C :=
  tabulate n n (fun i j =>
    if (j =? i + 1)%nat then RtoC (sqrt (INR j)) else zero).

Definition create (n : nat) : matrix C :=
  tabulate n n (fun i j =>
    if (i =? j + 1)%nat then RtoC (sqrt (INR i)) else zero).

(** [M * c] with a real scalar on the right and [M / x] with a real divisor,
    for a complex array [M]. *)
Definition mscale_r (M : matrix C) (c : R) : matrix C :=
  map (map (fun z => mul z (RtoC c))) M.
Definition mdiv_real (M : matrix C) (x : R) : matrix C :=
  map (map (fun z => Cdiv_real z x)) M.

(** ** Fluxonium *)

Module Fluxonium.

(** Modelled from the spec: the selector enum of [qcsys.devices.base], which
    is not part of the sources at hand.  The spec names [linear] and [full];
    [other] stands for any further selector value. *)
Inductive HamiltonianTypes : Type :=
  | linear
  | full
  | other (name : string).

(** Modelled from the spec: the fields that the [FluxDevice] base supplies
    (truncation sizes, parameter mapping, selector, label, linear flag). *)
Record t : Type := {
  N : nat;
  N_pre_diag : nat;
  params : gmap string R;
  hamiltonian : HamiltonianTypes;
  label : Z;
  use_linear : bool
}.

(** The dict built by [common_ops]; its keys are fixed, so it is a record.
    [cos_phi_2] and [sin_phi_2] are the entries ["cos(φ/2)"], ["sin(φ/2)"]. *)
Record ops : Type := {
  id : matrix C;
  a : matrix C;
  a_dag : matrix C;
  phi : matrix C;
  n : matrix C;
  cos_phi_2 : matrix C;
  sin_phi_2 : matrix C
}.

Definition n_zpf (self : t) : result R :=
  El ← getitem (params self) "El";
  Ec ← getitem (params self) "Ec";
  mret (float_pow (El / (32 * Ec)) 0.25).

Definition phi_zpf (self : t) : result R :=
  Ec ← getitem (params self) "Ec";
  El ← getitem (params self) "El";
  mret (float_pow (2 * Ec / El) 0.25).

Definition get_linear_ω (self : t) : result R :=
  Ec ← getitem (params self) "Ec";
  El ← getitem (params self) "El";
  mret (sqrt (8 * Ec * El)).

Definition potential (self : t) (phi : R) : result (option R) :=
  phi_ext ← getitem (params self) "phi_ext";
  El ← getitem (params self) "El";
  let V_linear := 0.5 * El * (2 * PI * phi) ^ 2 in
  match hamiltonian self with
  | linear => mret (Some V_linear)
  | h =>
      Ej ← getitem (params self) "Ej";
      let V_nonlinear := (- Ej) * cos (2 * PI * (phi - phi_ext)) in
      match h with
      | full => mret (Some (V_linear + V_nonlinear))
      | _ => mret None
      end
  end.

Section MatrixFunctions.
(** [jqt.cosm] and [jqt.sinm], the matrix cosine and sine. *)
Variables cosm sinm : matrix C -> matrix C.

Definition common_ops (self : t) : result ops :=
  let N := N_pre_diag self in
  let id := identity N in
  let a := destroy N in
  let a_dag := create N in
  pz ← phi_zpf self;
  let phi := mscale (RtoC pz) (madd a a_dag) in
  nz ← n_zpf self;
  let n := mscale (mul Ci (RtoC nz)) (msub a_dag a) in
  mret {| id := id; a := a; a_dag := a_dag; phi := phi; n := n;
          cos_phi_2 := cosm (mdiv_real phi 2);
          sin_phi_2 := sinm (mdiv_real phi 2) |}.

(** Modelled from the spec: the [linear_ops] property of the base class,
    the operators of [common_ops()]. *)
Definition linear_ops (self : t) : result ops := common_ops self.

Definition get_H_linear (self : t) : result (matrix C) :=
  w ← get_linear_ω self;
  o ← linear_ops self;
  mret (mscale (RtoC w)
          (madd (matmul (a_dag o) (a o)) (mscale (RtoC 0.5) (id o)))).

Definition get_H_full (self : t) : result (matrix C) :=
  o ← linear_ops self;
  let op_cos_phi := cosm (phi o) in
  let op_sin_phi := sinm (phi o) in
  phi_ext ← getitem (params self) "phi_ext";
  let Hcos :=
    madd (mscale_r op_cos_phi (cos (2 * PI * phi_ext)))
         (mscale_r op_sin_phi (sin (2 * PI * phi_ext))) in
  Hlin ← get_H_linear self;
  Ej ← getitem (params self) "Ej";
  mret (msub Hlin (mscale (RtoC Ej) Hcos)).
End MatrixFunctions.

End Fluxonium.

(** ** SingleChargeTransmon *)

Module SingleChargeTransmon.

(** The fields of the [Device] base, in the order of the constructor call in
    [create], followed by the class's own [N_max_charge]. *)
Record t : Type := {
  N : nat;
  params : gmap string R;
  label : Z;
  use_linear : bool;
  N_max_charge : nat
}.

Definition create (N N_max_charge : nat) (params : gmap string R)
    (label : Z) (use_linear : bool) : t :=
  {| N := N; params := params; label := label; use_linear := use_linear;
     N_max_charge := N_max_charge |}.

(** The dict built by [common_ops]: ["n"], ["cos(φ)"], ["cos(φ/2)"],
    ["sin(φ/2)"]. *)
Record ops : Type := {
  n : matrix Z;
  cos_phi : matrix R;
  cos_phi_2 : matrix R;
  sin_phi_2 : matrix C
}.

(** Modelled from the spec: the pair cached by the [eig_systems] property of
    the base class. *)
Record eig : Type := {
  vals : vector R;
  vecs : matrix C
}.

Definition build_n_op (self : t) : matrix Z :=
  diag (arange (- Z.of_nat (N_max_charge self))
               (Z.of_nat (N_max_charge self) + 1)).

Definition build_cos_phi_op (self : t) : matrix R :=
  mscale 0.5 (madd (eye (2 * N_max_charge self + 1) 2)
                   (eye (2 * N_max_charge self + 1) (-2))).

Definition build_cos_phi_2_op (self : t) : matrix R :=
  mscale 0.5 (madd (eye (2 * N_max_charge self + 1) 1)
                   (eye (2 * N_max_charge self + 1) (-1))).

Definition build_sin_phi_2_op (self : t) : matrix C :=
  mscale ((0, 0.5) : C)
    (to_complex (msub (eye (2 * N_max_charge self + 1) 1)
                      (eye (2 * N_max_charge self + 1) (-1)))).

Definition common_ops (self : t) : result ops :=
  _ ← assert (N self <=? 2 * N_max_charge self + 1)%nat;
  mret {| n := build_n_op self;
          cos_phi := build_cos_phi_op self;
          cos_phi_2 := build_cos_phi_2_op self;
          sin_phi_2 := build_sin_phi_2_op self |}.

(** Modelled from the spec: the [linear_ops] property of the base class,
    the operators of [common_ops()]. *)
Definition linear_ops (self : t) : result ops := common_ops self.

Definition phi_zpf (self : t) : result R :=
  Ec ← getitem (params self) "Ec";
  Ej ← getitem (params self) "Ej";
  mret (float_pow (2 * Ec / Ej) 0.25).

Definition n_zpf (self : t) : result R :=
  Ej ← getitem (params self) "Ej";
  Ec ← getitem (params self) "Ec";
  mret (float_pow (Ej / (32 * Ec)) 0.25).

Definition get_linear_ω (self : t) : result R :=
  Ec ← getitem (params self) "Ec";
  Ej ← getitem (params self) "Ej";
  mret (sqrt (8 * Ec * Ej)).

Definition get_H_linear (self : t) : result (matrix R) :=
  raise (call NotImplemented
    "No linear oscillator basis for single charge transmon. Set _use_linear = False.").

Definition get_H_full (self : t) : result (matrix R) :=
  ng ← getitem (params self) "ng";
  let n_minus_ng_array :=
    vsub (to_float (arange (- Z.of_nat (N_max_charge self))
                           (Z.of_nat (N_max_charge self) + 1)))
         (vscale (2 * ng) (ones (2 * N_max_charge self + 1))) in
  Ec ← getitem (params self) "Ec";
  let charging := diag (vscale Ec (map (fun x => x ^ 2) n_minus_ng_array)) in
  Ej ← getitem (params self) "Ej";
  o ← linear_ops self;
  mret (msub charging (mscale Ej (cos_phi o))).

Section Diagonalization.
(** The diagonalization collaborator: eigenvalues in ascending order and
    the matrix whose columns are the matching eigenvectors. *)
Variable eigh : matrix R -> vector R * matrix C.

(** Modelled from the spec: the [eig_systems] property of the base class
    diagonalizes [get_H_linear()] or [get_H_full()] according to
    [use_linear]. *)
Definition eig_systems (self : t) : result eig :=
  H ← (if use_linear self then get_H_linear self else get_H_full self);
  mret {| vals := fst (eigh H); vecs := snd (eigh H) |}.

Definition get_op_in_H_eigenbasis (self : t) (op : matrix C)
    : result (matrix C) :=
  es ← eig_systems self;
  let evecs := take_cols (N self) (vecs es) in
  inner ← dot op evecs;
  dot (conjugate (transpose evecs)) inner.
End Diagonalization.

End SingleChargeTransmon.

(** ** Sample devices *)

Definition transmon_params : gmap string R :=
  {[ "Ec" := 1; "Ej" := 10; "ng" := 0.25 ]}.

(** [SingleChargeTransmon.create(2, 1, params)]: valid truncation, [2 <= 3]. *)
Definition transmon_valid : SingleChargeTransmon.t :=
  SingleChargeTransmon.create 2 1 transmon_params 0 false.

(** [SingleChargeTransmon.create(4, 1, params)]: invalid truncation, [4 > 3]. *)
Definition transmon_invalid : SingleChargeTransmon.t :=
  SingleChargeTransmon.create 4 1 transmon_params 0 false.

Definition fluxonium_params : gmap string R :=
  {[ "Ec" := 1; "El" := 4; "Ej" := 8; "phi_ext" := 0.5 ]}.

(** A fluxonium with [Ec = 1], [El = 4] and the selector [h]. *)
Definition fluxonium_sample (h : Fluxonium.HamiltonianTypes) : Fluxonium.t :=
  {| Fluxonium.N := 2; Fluxonium.N_pre_diag := 3;
     Fluxonium.params := fluxonium_params; Fluxonium.hamiltonian := h;
     Fluxonium.label := 0; Fluxonium.use_linear := false |}.

(** A diagonalizer for matrices that are already diagonal with ascending
    diagonal: the eigenvalues are the diagonal entries and the eigenvectors
    are the standard basis. *)
Definition eigh_diagonal (H : matrix R) : vector R * matrix C :=
  (map (fun i => entry H i i) (seq 0 (length H)), identity (length H)).

(** The power series of the matrix cosine and sine cut after the first term,
    [cos M ~ I] and [sin M ~ M]: the simplest functions that honour the
    contract of [cosm] and [sinm] used below. *)
Definition cosm_order0 (M : matrix C) : matrix C := identity (length M).
Definition sinm_order1 (M : matrix C) : matrix C := M.

(** ** Reading several keys in turn *)

(** The first key of [keys] that the dict [d] lacks: the key of the
    [KeyError] raised by code that reads [keys] in this order. *)
Fixpoint first_missing (d : gmap string R) (keys : list string)
    : option string :=
  match keys with
  | [] => None
  | k :: ks =>
      match d !! k with
      | None => Some k
      | Some _ => first_missing d ks
      end
  end.

(** A transmon with a positive Josephson energy, for the scalar quantities. *)
Definition transmon_single : SingleChargeTransmon.t :=
  SingleChargeTransmon.create 1 0 transmon_params 0 false.

(** [fluxonium_sample] with the external flux moved by one flux quantum. *)
Definition fluxonium_shifted (h : Fluxonium.HamiltonianTypes) : Fluxonium.t :=
  {| Fluxonium.N := 2; Fluxonium.N_pre_diag := 3;
     Fluxonium.params :=
       {[ "Ec" := 1; "El" := 4; "Ej" := 8; "phi_ext" := 0.5 + 1 ]};
     Fluxonium.hamiltonian := h;
     Fluxonium.label := 0; Fluxonium.use_linear := false |}.

(** A fluxonium without external flux. *)
Definition fluxonium_unbiased (h : Fluxonium.HamiltonianTypes) : Fluxonium.t :=
  {| Fluxonium.N := 2; Fluxonium.N_pre_diag := 3;
     Fluxonium.params := {[ "Ec" := 1; "El" := 4; "Ej" := 8; "phi_ext" := 0 ]};
     Fluxonium.hamiltonian := h;
     Fluxonium.label := 0; Fluxonium.use_linear := false |}.

(** A fluxonium whose junction is switched off ([Ej = 0]). *)
Definition fluxonium_no_junction : Fluxonium.t :=
  {| Fluxonium.N := 2; Fluxonium.N_pre_diag := 3;
     Fluxonium.params := {[ "Ec" := 1; "El" := 4; "Ej" := 0; "phi_ext" := 0.5 ]};
     Fluxonium.hamiltonian := Fluxonium.full;
     Fluxonium.label := 0; Fluxonium.use_linear := false |}.

(** [transmon_valid] with the opposite offset charge. *)
Definition transmon_valid_opposite : SingleChargeTransmon.t :=
  SingleChargeTransmon.create 2 1
    {[ "Ec" := 1; "Ej" := 10; "ng" := Ropp 0.25 ]} 0 false.

(** [transmon_valid] with another truncation and label. *)
Definition transmon_valid_3 : SingleChargeTransmon.t :=
  SingleChargeTransmon.create 3 1 transmon_params 7 false.

(** A transmon without Josephson coupling: its Hamiltonian is diagonal in the
    charge basis. *)
Definition transmon_no_junction : SingleChargeTransmon.t :=
  SingleChargeTransmon.create 2 1 {[ "Ec" := 1; "Ej" := 0; "ng" := 0.25 ]} 0 false.

(** [transmon_valid] with the linear flag set. *)
Definition transmon_use_linear : SingleChargeTransmon.t :=
  SingleChargeTransmon.create 2 1 transmon_params 0 true.

(** Fluxoniums whose parameter dict lacks a key: ["Ec"], ["El"], and the two
    keys ["phi_ext"], ["Ej"] that only the full Hamiltonian reads. *)
Definition fluxonium_without_Ec : Fluxonium.t :=
  {| Fluxonium.N := 2; Fluxonium.N_pre_diag := 3;
     Fluxonium.params := {[ "El" := 4; "Ej" := 8; "phi_ext" := 0.5 ]};
     Fluxonium.hamiltonian := Fluxonium.full;
     Fluxonium.label := 0; Fluxonium.use_linear := false |}.

Definition fluxonium_without_El : Fluxonium.t :=
  {| Fluxonium.N := 2; Fluxonium.N_pre_diag := 3;
     Fluxonium.params := {[ "Ec" := 1; "Ej" := 8; "phi_ext" := 0.5 ]};
     Fluxonium.hamiltonian := Fluxonium.full;
     Fluxonium.label := 0; Fluxonium.use_linear := false |}.

Definition fluxonium_linear_only : Fluxonium.t :=
  {| Fluxonium.N := 2; Fluxonium.N_pre_diag := 3;
     Fluxonium.params := {[ "Ec" := 1; "El" := 4 ]};
     Fluxonium.hamiltonian := Fluxonium.linear;
     Fluxonium.label := 0; Fluxonium.use_linear := false |}.

(** ** The zero-point fluctuations of the fluxonium in binary64

    The same two formulas on IEEE 754 binary64 numbers, the kernel's primitive
    floats: [*] and [/] round to nearest, ties to even, as float64 does. *)

Module Binary64.

(** [d[key]] on a dict whose values are binary64 numbers. *)
Definition getitem (d : gmap string float) (key : string) : result float :=
  match d !! key with
  | Some v => Ok v
  | None => Raise (KeyError key)
  end.

(** [p * 2^e < q * 2^f] on integers, decided exactly. *)
Definition dyadic_ltb (p e q f : Z) : bool :=
  let k := Z.min e f in (p * 2 ^ (e - k) <? q * 2 ^ (f - k))%Z.

(** [r] is the binary64 number nearest to the fourth root of [x], for positive
    finite [x] and [r]: [x] lies strictly between the fourth powers of the two
    midpoints that separate [r = mr * 2^er] from its neighbours.  The upper
    midpoint is [(2*mr + 1) * 2^(er-1)]; so is the lower one with [-1], except
    at the bottom of a binade ([mr = 2^52]), where the spacing below is half
    the spacing above. *)
Definition nearest_root4 (x r : float) : bool :=
  match Prim2SF x, Prim2SF r with
  | S754_finite false mx ex, S754_finite false mr er =>
      let below :=
        if (Z.pos mr =? 2 ^ 52)%Z then (4 * Z.pos mr - 1, er - 2)%Z
        else (2 * Z.pos mr - 1, er - 1)%Z in
      dyadic_ltb (below.1 ^ 4) (4 * below.2) (Z.pos mx) ex
      && dyadic_ltb (Z.pos mx) ex ((2 * Z.pos mr + 1) ^ 4) (4 * (er - 1))
  | _, _ => false
  end.

(** [x ** 0.25] on a positive binary64 [x], taken correctly rounded: the
    binary64 number nearest to the real fourth root, found next to
    [sqrt (sqrt x)].  The power function of a C library is within one unit in
    the last place of this value. *)
Definition pow_quarter (x : float) : float :=
  let c := PrimFloat.sqrt (PrimFloat.sqrt x) in
  if nearest_root4 x c then c
  else if nearest_root4 x (next_down c) then next_down c
  else if nearest_root4 x (next_up c) then next_up c
  else c.

Definition n_zpf (params : gmap string float) : result float :=
  El ← getitem params "El";
  Ec ← getitem params "Ec";
  mret (pow_quarter (El / (32 * Ec))%float).

Definition phi_zpf (params : gmap string float) : result float :=
  Ec ← getitem params "Ec";
  El ← getitem params "El";
  mret (pow_quarter (2 * Ec / El)%float).

(** The real number that a finite binary64 number denotes. *)
Definition to_R (f : float) : R :=
  match Prim2SF f with
  | S754_finite s m e =>
      let v := if (0 <=? e)%Z then IZR (Z.pos m) * 2 ^ Z.to_nat e
               else IZR (Z.pos m) / 2 ^ Z.to_nat (- e) in
      if s then - v else v
  | _ => 0
  end.

End Binary64.

(** [fluxonium_params] as binary64 numbers; each value is exact. *)
Definition fluxonium_params_binary64 : gmap string float :=
  {[ "Ec" := 1%float; "El" := 4%float; "Ej" := 8%float;
     "phi_ext" := 0.5%float ]}.

(** * Properties *)

(** ** Lists and tabulated arrays *)

Lemma nth_map_seq {B : Type} (g : nat -> B) (n i : nat) (d : B) :
  (i < n)%nat -> nth i (map g (seq 0 n)) d = g i.
Proof.
  intros Hi.
  rewrite (nth_indep _ d (g 0%nat)) by (rewrite length_map, length_seq; lia).
  rewrite map_nth, seq_nth by lia. reflexivity.
Qed.

Lemma map_seq_ext {B : Type} (f g : nat -> B) (n : nat) :
  (forall i, (i < n)%nat -> f i = g i) -> map f (seq 0 n) = map g (seq 0 n).
Proof.
  intros Hfg. apply map_ext_in. intros i Hi. apply in_seq in Hi.
  apply Hfg. lia.
Qed.

Lemma list_eq_map_seq {B : Type} (l : list B) (d : B) :
  l = map (fun i => nth i l d) (seq 0 (length l)).
Proof.
  apply (nth_ext _ _ d d).
  - rewrite length_map, length_seq. reflexivity.
  - intros i Hi. rewrite nth_map_seq by lia. reflexivity.
Qed.

Section ArrayFacts.
Context {A : Type} `{Scalar A}.

Lemma shape_tabulate (n m : nat) (f : nat -> nat -> A) :
  shape (tabulate n m f) n m.
Proof.
  split.
  - unfold tabulate. rewrite length_map, length_seq. reflexivity.
  - unfold tabulate. apply List.Forall_forall. intros r Hr.
    apply in_map_iff in Hr. destruct Hr as (i & <- & _).
    rewrite length_map, length_seq. reflexivity.
Qed.

Lemma entry_tabulate (n m : nat) (f : nat -> nat -> A) (i j : nat) :
  (i < n)%nat -> (j < m)%nat -> entry (tabulate n m f) i j = f i j.
Proof.
  intros Hi Hj. unfold entry, tabulate.
  rewrite nth_map_seq by lia. rewrite nth_map_seq by lia. reflexivity.
Qed.

Lemma tabulate_ext (n m : nat) (f g : nat -> nat -> A) :
  (forall i j, (i < n)%nat -> (j < m)%nat -> f i j = g i j) ->
  tabulate n m f = tabulate n m g.
Proof.
  intros Hfg. unfold tabulate. apply map_seq_ext. intros i Hi.
  apply map_seq_ext. intros j Hj. apply Hfg; assumption.
Qed.

Lemma shape_row (M : matrix A) (n m i : nat) :
  shape M n m -> (i < n)%nat -> length (nth i M []) = m.
Proof.
  intros [Hn Hm] Hi. rewrite List.Forall_forall in Hm. apply Hm.
  apply nth_In. lia.
Qed.

Lemma shape_ncols (M : matrix A) (n m : nat) :
  shape M n m -> (0 < n)%nat -> ncols M = m.
Proof.
  intros HM Hn. unfold ncols.
  destruct M as [|r M]; [destruct HM; simpl in *; lia|].
  simpl. apply (shape_row (r :: M) n m 0 HM Hn).
Qed.

(** A rectangular array is the table of its entries. *)
Lemma tabulate_entry (M : matrix A) (n m : nat) :
  shape M n m -> M = tabulate n m (entry M).
Proof.
  intros HM. pose proof HM as [Hn Hm].
  rewrite (list_eq_map_seq M []) at 1. rewrite Hn.
  unfold tabulate. apply map_seq_ext. intros i Hi.
  rewrite (list_eq_map_seq (nth i M []) zero) at 1.
  rewrite (shape_row M n m i HM Hi). reflexivity.
Qed.

Lemma matrix_ext (M P : matrix A) (n m : nat) :
  shape M n m -> shape P n m ->
  (forall i j, (i < n)%nat -> (j < m)%nat -> entry M i j = entry P i j) ->
  M = P.
Proof.
  intros HM HP Heq.
  rewrite (tabulate_entry M n m HM), (tabulate_entry P n m HP).
  apply tabulate_ext, Heq.
Qed.
End ArrayFacts.

(** ** The integer range *)

Lemma length_arange (lo hi : Z) : length (arange lo hi) = Z.to_nat (hi - lo).
Proof. unfold arange. rewrite length_map, length_seq. reflexivity. Qed.

Lemma nth_arange (lo hi : Z) (i : nat) :
  (i < Z.to_nat (hi - lo))%nat ->
  nth i (arange lo hi) 0%Z = (lo + Z.of_nat i)%Z.
Proof. intros Hi. unfold arange. rewrite nth_map_seq by lia. reflexivity. Qed.

Lemma length_charge_range (m : nat) :
  length (arange (- Z.of_nat m) (Z.of_nat m + 1)) = (2 * m + 1)%nat.
Proof. rewrite length_arange. lia. Qed.

(** ** SingleChargeTransmon: errors and the charge operator *)

(** C2 (as the code behaves): [get_H_linear] never returns a Hamiltonian, and
    the exception it raises is the [TypeError] of calling the constant
    [NotImplemented], never a [NotImplementedError]. *)
Theorem transmon_get_H_linear_raises_TypeError (self : SingleChargeTransmon.t) :
  SingleChargeTransmon.get_H_linear self
    = Raise (TypeError "'NotImplementedType' object is not callable")
  /\ (forall H, SingleChargeTransmon.get_H_linear self <> Ok H)
  /\ (forall msg,
        SingleChargeTransmon.get_H_linear self <> Raise (NotImplementedError msg)).
Proof.
  unfold SingleChargeTransmon.get_H_linear, raise, call.
  repeat split; intros; discriminate.
Qed.

(** C3: [common_ops] raises [AssertionError] exactly when
    [N > 2 * N_max_charge + 1], and returns the operators exactly when
    [N <= 2 * N_max_charge + 1]. *)
Theorem transmon_common_ops_truncation (self : SingleChargeTransmon.t) :
  let N := SingleChargeTransmon.N self in
  let D := (2 * SingleChargeTransmon.N_max_charge self + 1)%nat in
  (SingleChargeTransmon.common_ops self = Raise AssertionError <-> (D < N)%nat)
  /\ ((exists o, SingleChargeTransmon.common_ops self = Ok o) <-> (N <= D)%nat).
Proof.
  intros N D. unfold SingleChargeTransmon.common_ops.
  fold N. fold D.
  destruct (Nat.leb_spec N D) as [Hle | Hgt]; simpl.
  - split; split.
    + discriminate.
    + lia.
    + intros _. assumption.
    + intros _. eexists. reflexivity.
  - split; split.
    + intros _. assumption.
    + reflexivity.
    + intros [o Ho]. discriminate.
    + lia.
Qed.

Lemma transmon_common_ops_truncation_witness :
  SingleChargeTransmon.common_ops transmon_invalid = Raise AssertionError
  /\ exists o, SingleChargeTransmon.common_ops transmon_valid = Ok o.
Proof.
  split.
  - apply (proj1 (transmon_common_ops_truncation transmon_invalid)).
    simpl. lia.
  - apply (proj2 (transmon_common_ops_truncation transmon_valid)).
    simpl. lia.
Defined.

(** C4: with a valid truncation, [common_ops()["n"]] is the square array of
    dimension [2 * N_max_charge + 1] whose diagonal holds the integers
    [-N_max_charge, ..., N_max_charge] and whose other entries are zero. *)
Theorem transmon_common_ops_n (self : SingleChargeTransmon.t) :
  let m := SingleChargeTransmon.N_max_charge self in
  (SingleChargeTransmon.N self <= 2 * m + 1)%nat ->
  exists o,
    SingleChargeTransmon.common_ops self = Ok o
    /\ SingleChargeTransmon.n o = diag (arange (- Z.of_nat m) (Z.of_nat m + 1))
    /\ shape (SingleChargeTransmon.n o) (2 * m + 1) (2 * m + 1)
    /\ forall i j, (i < 2 * m + 1)%nat -> (j < 2 * m + 1)%nat ->
         entry (SingleChargeTransmon.n o) i j
         = if (i =? j)%nat then (Z.of_nat i - Z.of_nat m)%Z else 0%Z.
Proof.
  intros m Hle. unfold SingleChargeTransmon.common_ops.
  destruct (Nat.leb_spec (SingleChargeTransmon.N self)
              (2 * SingleChargeTransmon.N_max_charge self + 1)) as [_ | Hgt];
    [| fold m in Hgt; lia].
  simpl. eexists. split; [reflexivity|]. simpl.
  unfold SingleChargeTransmon.build_n_op. fold m.
  split; [reflexivity|]. unfold diag. rewrite length_charge_range.
  split; [apply shape_tabulate|].
  intros i j Hi Hj. rewrite entry_tabulate by assumption.
  destruct (Nat.eqb_spec i j) as [-> | Hne]; [| reflexivity].
  rewrite nth_arange by lia. simpl. lia.
Qed.

Lemma transmon_common_ops_n_witness :
  exists o,
    SingleChargeTransmon.common_ops transmon_valid = Ok o
    /\ SingleChargeTransmon.n o = [[-1; 0; 0]; [0; 0; 0]; [0; 0; 1]]%Z.
Proof.
  destruct (transmon_common_ops_n transmon_valid) as (o & Ho & Hn & _).
  - simpl. lia.
  - exists o. split; [exact Ho|]. rewrite Hn. reflexivity.
Defined.

(** ** Fluxonium: scalar quantities *)

Lemma getitem_Some (d : gmap string R) (key : string) (v : R) :
  d !! key = Some v -> getitem d key = Ok v.
Proof. intros Hv. unfold getitem. rewrite Hv. reflexivity. Qed.

Lemma float_pow_quarter_pos (x : R) : 0 < float_pow x 0.25.
Proof. unfold float_pow, Rpower. apply exp_pos. Qed.

(** For a positive base, [x ** 0.25] is the fourth root of [x]. *)
Lemma float_pow_quarter_pow4 (x : R) : 0 < x -> float_pow x 0.25 ^ 4 = x.
Proof.
  intros Hx. unfold float_pow.
  rewrite <- (Rpower_pow 4) by apply exp_pos.
  rewrite Rpower_mult.
  replace (0.25 * INR 4) with 1 by (simpl; lra).
  apply Rpower_1, Hx.
Qed.

Lemma float_pow_quarter_unique (x y : R) :
  0 < x -> 0 < y -> y ^ 4 = x -> float_pow x 0.25 = y.
Proof.
  intros Hx Hy <-. unfold float_pow.
  rewrite <- (Rpower_pow 4) by assumption.
  rewrite Rpower_mult.
  replace (INR 4 * 0.25) with 1 by (simpl; lra).
  apply Rpower_1, Hy.
Qed.

(** C8: with positive [Ec] and [El], [n_zpf()] is [(El/(32*Ec)) ** 0.25] and
    [phi_zpf()] is [(2*Ec/El) ** 0.25], the positive fourth roots of
    [El/(32*Ec)] and [2*Ec/El]. *)
Theorem fluxonium_zpf (self : Fluxonium.t) (Ec El : R) :
  Fluxonium.params self !! "Ec" = Some Ec ->
  Fluxonium.params self !! "El" = Some El ->
  0 < Ec -> 0 < El ->
  Fluxonium.n_zpf self = Ok (float_pow (El / (32 * Ec)) 0.25)
  /\ Fluxonium.phi_zpf self = Ok (float_pow (2 * Ec / El) 0.25)
  /\ (0 < float_pow (El / (32 * Ec)) 0.25
      /\ float_pow (El / (32 * Ec)) 0.25 ^ 4 = El / (32 * Ec))
  /\ (0 < float_pow (2 * Ec / El) 0.25
      /\ float_pow (2 * Ec / El) 0.25 ^ 4 = 2 * Ec / El).
Proof.
  intros HEc HEl Hc Hl.
  unfold Fluxonium.n_zpf, Fluxonium.phi_zpf.
  rewrite (getitem_Some _ _ _ HEc), (getitem_Some _ _ _ HEl).
  split; [reflexivity|]. split; [reflexivity|].
  assert (0 < El / (32 * Ec)) by (apply Rdiv_lt_0_compat; lra).
  assert (0 < 2 * Ec / El) by (apply Rdiv_lt_0_compat; lra).
  repeat split;
    solve [apply float_pow_quarter_pos | apply float_pow_quarter_pow4; assumption].
Qed.

Lemma fluxonium_zpf_witness :
  Fluxonium.phi_zpf (fluxonium_sample Fluxonium.full)
    = Ok (float_pow (2 * 1 / 4) 0.25)
  /\ Fluxonium.n_zpf (fluxonium_sample Fluxonium.full)
    = Ok (float_pow (4 / (32 * 1)) 0.25).
Proof.
  destruct (fluxonium_zpf (fluxonium_sample Fluxonium.full) 1 4)
    as (Hn & Hp & _); try reflexivity; try lra.
  split; assumption.
Defined.

(** C10, amended: in exact arithmetic, with positive [Ec] and [El], the
    product [n_zpf() * phi_zpf()] is one half, whatever the parameter values
    ([(El/(32*Ec)) * (2*Ec/El) = 1/16]).  On float64 the product is one half
    only up to rounding, as the binary64 evaluation below shows. *)
Theorem fluxonium_zpf_product (self : Fluxonium.t) (Ec El : R) :
  Fluxonium.params self !! "Ec" = Some Ec ->
  Fluxonium.params self !! "El" = Some El ->
  0 < Ec -> 0 < El ->
  exists nz pz,
    Fluxonium.n_zpf self = Ok nz /\ Fluxonium.phi_zpf self = Ok pz
    /\ nz * pz = 1 / 2.
Proof.
  intros HEc HEl Hc Hl.
  unfold Fluxonium.n_zpf, Fluxonium.phi_zpf.
  rewrite (getitem_Some _ _ _ HEc), (getitem_Some _ _ _ HEl).
  eexists. eexists. split; [reflexivity|]. split; [reflexivity|].
  assert (H1 : 0 < El / (32 * Ec)) by (apply Rdiv_lt_0_compat; lra).
  assert (H2 : 0 < 2 * Ec / El) by (apply Rdiv_lt_0_compat; lra).
  unfold float_pow. rewrite Rpower_mult_distr by assumption.
  apply (float_pow_quarter_unique _ (1 / 2)).
  - apply Rmult_lt_0_compat; assumption.
  - lra.
  - field. split; lra.
Qed.

Lemma fluxonium_zpf_product_witness :
  exists nz pz,
    Fluxonium.n_zpf (fluxonium_sample Fluxonium.full) = Ok nz
    /\ Fluxonium.phi_zpf (fluxonium_sample Fluxonium.full) = Ok pz
    /\ nz * pz = 1 / 2.
Proof.
  apply (fluxonium_zpf_product (fluxonium_sample Fluxonium.full) 1 4);
    try reflexivity; lra.
Defined.

(** *** The product in binary64 *)

(** A positive real lies between two bounds when its fourth power does. *)
Lemma root4_between (lo hi x t : R) :
  0 <= lo -> 0 < hi -> 0 < x -> x ^ 4 = t ->
  lo ^ 4 < t -> t < hi ^ 4 -> lo < x < hi.
Proof.
  intros Hlo Hhi Hx Ht H1 H2. split; apply Rnot_le_lt; intros Hle.
  - assert (x ^ 4 <= lo ^ 4) by (apply pow_incr; lra). lra.
  - assert (hi ^ 4 <= x ^ 4) by (apply pow_incr; lra). lra.
Qed.

Lemma quotient_pow4 (p q : Z) :
  (0 < q)%Z -> (IZR p / IZR q) ^ 4 = IZR (p ^ 4) / IZR (q ^ 4).
Proof.
  intros Hq. assert (IZR q <> 0) by (apply not_0_IZR; lia).
  change 4%Z with (Z.of_nat 4). rewrite <- !pow_IZR. field. assumption.
Qed.

Lemma quotient_lt (a b c d : Z) :
  (0 < b)%Z -> (0 < d)%Z -> (a * d < c * b)%Z -> IZR a / IZR b < IZR c / IZR d.
Proof.
  intros Hb Hd H. apply IZR_lt in Hb, Hd, H. rewrite !mult_IZR in H.
  apply (Rmult_lt_reg_r (IZR b * IZR d)); [apply Rmult_lt_0_compat; assumption|].
  replace (IZR a / IZR b * (IZR b * IZR d)) with (IZR a * IZR d) by (field; lra).
  replace (IZR c / IZR d * (IZR b * IZR d)) with (IZR c * IZR b) by (field; lra).
  exact H.
Qed.

(** The binary64 number [m * 2^-53] of the binade [[1/2, 1)], where the
    spacing is [2^-53], is within half a spacing of the positive fourth root
    [x] of [a / b] when [a / b] lies between the fourth powers of the two
    midpoints [(2*m - 1) * 2^-54] and [(2*m + 1) * 2^-54]. *)
Lemma root4_half_spacing (m a b : Z) (x : R) :
  (1 <= m)%Z -> (0 < b)%Z ->
  0 < x -> x ^ 4 = IZR a / IZR b ->
  ((2 * m - 1) ^ 4 * b < a * (2 ^ 54) ^ 4)%Z ->
  (a * (2 ^ 54) ^ 4 < (2 * m + 1) ^ 4 * b)%Z ->
  Rabs (IZR m / 2 ^ 53 - x) < / 2 ^ 54.
Proof.
  intros Hm Hb Hx Hx4 Hbelow Habove.
  assert (Hq : (0 < 2 ^ 54)%Z) by reflexivity.
  assert (Hq4 : (0 < (2 ^ 54) ^ 4)%Z) by reflexivity.
  destruct (root4_between (IZR (2 * m - 1) / IZR (2 ^ 54))
              (IZR (2 * m + 1) / IZR (2 ^ 54)) x (IZR a / IZR b))
    as [H1 H2]; try assumption.
  - apply Rmult_le_pos; [apply IZR_le; lia|].
    left. apply Rinv_0_lt_compat, IZR_lt, Hq.
  - apply Rdiv_lt_0_compat; apply IZR_lt; [lia | exact Hq].
  - rewrite quotient_pow4 by exact Hq.
    apply quotient_lt; assumption.
  - rewrite quotient_pow4 by exact Hq.
    apply quotient_lt; assumption.
  - assert (E53 : 2 ^ 53 = IZR (2 ^ 54) / 2).
    { change (2 ^ 54)%Z with (2 * 2 ^ 53)%Z. rewrite mult_IZR.
      change 53%Z with (Z.of_nat 53). rewrite <- pow_IZR. lra. }
    assert (E54 : 2 ^ 54 = IZR (2 ^ 54)).
    { change 54%Z with (Z.of_nat 54). rewrite <- pow_IZR. reflexivity. }
    rewrite E53, E54.
    rewrite minus_IZR, mult_IZR in H1. rewrite plus_IZR, mult_IZR in H2.
    assert (Hd : 0 < IZR (2 ^ 54)) by (apply IZR_lt, Hq).
    set (d := IZR (2 ^ 54)) in *. clearbody d.
    assert (Hu : 0 < / d) by (apply Rinv_0_lt_compat, Hd).
    replace (IZR m / (d / 2)) with (2 * (IZR m * / d)) by (field; lra).
    unfold Rdiv in H1, H2.
    rewrite Rmult_minus_distr_r in H1. rewrite Rmult_plus_distr_r in H2.
    rewrite Rmult_assoc in H1, H2.
    set (w := IZR m * / d) in *. clearbody w.
    apply Rabs_def1; lra.
Qed.

(** C10, the claim as worded: in binary64, at [Ec = 1] and [El = 4], the
    methods return [nz = 0x1.306fe0a31b715p-1] (0.5946035575013605) and
    [pz = 0x1.ae89f995ad3adp-1] (0.8408964152537145).  Each is the binary64
    number nearest to the exact value [x], [y] of the real-valued model
    (within [2^-54], half the spacing of binary64 numbers in [[1/2, 1)]), and
    their binary64 product is [0x1.fffffffffffffp-2] (0.49999999999999994),
    which is not [0.5]. *)
Lemma fluxonium_zpf_product_binary64 :
  exists (nz pz : float) (x y : R),
    Binary64.n_zpf fluxonium_params_binary64 = Ok nz
    /\ Binary64.phi_zpf fluxonium_params_binary64 = Ok pz
    /\ Fluxonium.n_zpf (fluxonium_sample Fluxonium.full) = Ok x
    /\ Fluxonium.phi_zpf (fluxonium_sample Fluxonium.full) = Ok y
    /\ Rabs (Binary64.to_R nz - x) < / 2 ^ 54
    /\ Rabs (Binary64.to_R pz - y) < / 2 ^ 54
    /\ nz = 0x1.306fe0a31b715p-1%float
    /\ pz = 0x1.ae89f995ad3adp-1%float
    /\ (nz * pz)%float = 0x1.fffffffffffffp-2%float
    /\ (nz * pz =? 0.5)%float = false.
Proof.
  exists 0x1.306fe0a31b715p-1%float, 0x1.ae89f995ad3adp-1%float,
    (float_pow (4 / (32 * 1)) 0.25), (float_pow (2 * 1 / 4) 0.25).
  split; [vm_compute; reflexivity|].
  split; [vm_compute; reflexivity|].
  split.
  { unfold Fluxonium.n_zpf.
    rewrite (getitem_Some _ "El" 4), (getitem_Some _ "Ec" 1) by reflexivity.
    reflexivity. }
  split.
  { unfold Fluxonium.phi_zpf.
    rewrite (getitem_Some _ "El" 4), (getitem_Some _ "Ec" 1) by reflexivity.
    reflexivity. }
  split.
  { assert (E : Prim2SF 0x1.306fe0a31b715p-1%float
                = S754_finite false 5355712719992597 (-53))
      by (vm_compute; reflexivity).
    unfold Binary64.to_R. rewrite E.
    change (Rabs (IZR 5355712719992597 / 2 ^ 53 - float_pow (4 / (32 * 1)) 0.25)
            < / 2 ^ 54).
    apply (root4_half_spacing _ 1 8).
    - vm_compute. discriminate.
    - reflexivity.
    - apply float_pow_quarter_pos.
    - rewrite float_pow_quarter_pow4 by lra. lra.
    - vm_compute. reflexivity.
    - vm_compute. reflexivity. }
  split.
  { assert (E : Prim2SF 0x1.ae89f995ad3adp-1%float
                = S754_finite false 7574121564787629 (-53))
      by (vm_compute; reflexivity).
    unfold Binary64.to_R. rewrite E.
    change (Rabs (IZR 7574121564787629 / 2 ^ 53 - float_pow (2 * 1 / 4) 0.25)
            < / 2 ^ 54).
    apply (root4_half_spacing _ 1 2).
    - vm_compute. discriminate.
    - reflexivity.
    - apply float_pow_quarter_pos.
    - rewrite float_pow_quarter_pow4 by lra. lra.
    - vm_compute. reflexivity.
    - vm_compute. reflexivity. }
  repeat split; vm_compute; reflexivity.
Qed.

(** C7: [potential(phi)] is [0.5*El*(2*pi*phi)^2] under the [linear]
    selector, that value minus [Ej*cos(2*pi*(phi - phi_ext))] under [full], and
    [None] (no value, no exception) under any other selector; at [phi = 0] it
    is [0] under [linear] and [-Ej*cos(-2*pi*phi_ext)] under [full]. *)
Theorem fluxonium_potential (self : Fluxonium.t) (El Ej phi_ext phi : R) :
  Fluxonium.params self !! "El" = Some El ->
  Fluxonium.params self !! "Ej" = Some Ej ->
  Fluxonium.params self !! "phi_ext" = Some phi_ext ->
  (Fluxonium.hamiltonian self = Fluxonium.linear ->
     Fluxonium.potential self phi = Ok (Some (0.5 * El * (2 * PI * phi) ^ 2))
     /\ Fluxonium.potential self 0 = Ok (Some 0))
  /\ (Fluxonium.hamiltonian self = Fluxonium.full ->
        Fluxonium.potential self phi
          = Ok (Some (0.5 * El * (2 * PI * phi) ^ 2
                      - Ej * cos (2 * PI * (phi - phi_ext))))
        /\ Fluxonium.potential self 0
          = Ok (Some (- Ej * cos (- 2 * PI * phi_ext))))
  /\ (forall name, Fluxonium.hamiltonian self = Fluxonium.other name ->
        Fluxonium.potential self phi = Ok None).
Proof.
  intros HEl HEj Hext. unfold Fluxonium.potential.
  rewrite (getitem_Some _ _ _ HEl), (getitem_Some _ _ _ HEj),
    (getitem_Some _ _ _ Hext).
  split; [| split].
  - intros ->. simpl. split; do 2 f_equal; ring.
  - intros ->. simpl. split; do 2 f_equal; [ring|].
    replace (2 * PI * (0 - phi_ext)) with (- 2 * PI * phi_ext) by ring. ring.
  - intros name ->. reflexivity.
Qed.

Lemma fluxonium_potential_witness :
  Fluxonium.potential (fluxonium_sample Fluxonium.linear) 0 = Ok (Some 0)
  /\ Fluxonium.potential (fluxonium_sample Fluxonium.full) 0
     = Ok (Some (- 8 * cos (- 2 * PI * 0.5)))
  /\ Fluxonium.potential (fluxonium_sample (Fluxonium.other "bare")) 0 = Ok None.
Proof.
  split; [| split].
  - apply (fluxonium_potential (fluxonium_sample Fluxonium.linear) 4 8 0.5 0);
      reflexivity.
  - apply (fluxonium_potential (fluxonium_sample Fluxonium.full) 4 8 0.5 0);
      reflexivity.
  - apply (fluxonium_potential (fluxonium_sample (Fluxonium.other "bare"))
             4 8 0.5 0) with (name := "bare"); reflexivity.
Defined.

(** ** Exact arithmetic on the three dtypes *)

Lemma C_eq (z w : C) : fst z = fst w -> snd z = snd w -> z = w.
Proof. destruct z, w. simpl. intros -> ->. reflexivity. Qed.

Ltac solve_complex :=
  intros; apply C_eq; simpl; lra.

#[global] Instance R_laws : ScalarLaws R.
Proof. split; simpl; intros; lra. Qed.

#[global] Instance C_laws : ScalarLaws C.
Proof.
  split; unfold zero, one, add, sub, mul, conj; simpl;
    unfold Cadd, Csub, Cmul, Cconj, RtoC; solve_complex.
Qed.

#[global] Instance Z_laws : ScalarLaws Z.
Proof. split; simpl; intros; lia. Qed.

Lemma Cconj_RtoC (x : R) : conj (RtoC x) = RtoC x.
Proof. unfold conj; simpl. unfold Cconj, RtoC. solve_complex. Qed.

Lemma Cmul_RtoC (x y : R) : mul (RtoC x) (RtoC y) = RtoC (x * y).
Proof. unfold mul; simpl. unfold Cmul, RtoC. solve_complex. Qed.

(** ** Arrays as tables of entries *)

Lemma zip_with_map_same {X Y Z W : Type} (f : Y -> Z -> W) (g : X -> Y)
    (h : X -> Z) (l : list X) :
  zip_with f (map g l) (map h l) = map (fun x => f (g x) (h x)) l.
Proof. induction l as [|x l IH]; simpl; [reflexivity | rewrite IH; reflexivity]. Qed.

Section TableFacts.
Context {A : Type} `{Scalar A}.

Lemma madd_tabulate (n m : nat) (f g : nat -> nat -> A) :
  madd (tabulate n m f) (tabulate n m g)
  = tabulate n m (fun i j => add (f i j) (g i j)).
Proof.
  unfold madd, tabulate. rewrite zip_with_map_same.
  apply map_ext. intros i. unfold vadd. apply zip_with_map_same.
Qed.

Lemma msub_tabulate (n m : nat) (f g : nat -> nat -> A) :
  msub (tabulate n m f) (tabulate n m g)
  = tabulate n m (fun i j => sub (f i j) (g i j)).
Proof.
  unfold msub, tabulate. rewrite zip_with_map_same.
  apply map_ext. intros i. unfold vsub. apply zip_with_map_same.
Qed.

Lemma mscale_tabulate (c : A) (n m : nat) (f : nat -> nat -> A) :
  mscale c (tabulate n m f) = tabulate n m (fun i j => mul c (f i j)).
Proof.
  unfold mscale, tabulate. rewrite map_map.
  apply map_ext. intros i. unfold vscale. apply map_map.
Qed.

Lemma conjugate_tabulate (n m : nat) (f : nat -> nat -> A) :
  conjugate (tabulate n m f) = tabulate n m (fun i j => conj (f i j)).
Proof.
  unfold conjugate, tabulate. rewrite map_map.
  apply map_ext. intros i. apply map_map.
Qed.

Lemma ncols_tabulate (n m : nat) (f : nat -> nat -> A) :
  (0 < n)%nat -> ncols (tabulate n m f) = m.
Proof. apply shape_ncols, shape_tabulate. Qed.

Lemma col_tabulate (n m j : nat) (f : nat -> nat -> A) :
  (j < m)%nat -> col j (tabulate n m f) = map (fun i => f i j) (seq 0 n).
Proof.
  intros Hj. unfold col, tabulate. rewrite map_map.
  apply map_ext. intros i. apply nth_map_seq, Hj.
Qed.

(** The transpose of a table; a table without rows has lost its column
    count, so the shape must not be [(0, m)] with [m > 0]. *)
Lemma transpose_tabulate (n m : nat) (f : nat -> nat -> A) :
  (n = 0 -> m = 0)%nat ->
  transpose (tabulate n m f) = tabulate m n (fun i j => f j i).
Proof.
  intros Hnm. unfold transpose.
  destruct n as [|n].
  - rewrite Hnm by reflexivity. reflexivity.
  - rewrite ncols_tabulate by lia. unfold tabulate at 2.
    apply map_seq_ext. intros j Hj. apply col_tabulate, Hj.
Qed.

Lemma dot_vec_map_seq (k : nat) (f g : nat -> A) :
  dot_vec (map f (seq 0 k)) (map g (seq 0 k)) = sum_prod k f g.
Proof. unfold dot_vec, vmul, sum_prod. rewrite zip_with_map_same. reflexivity. Qed.

Lemma matmul_tabulate (n k m : nat) (f g : nat -> nat -> A) :
  (0 < k)%nat ->
  matmul (tabulate n k f) (tabulate k m g)
  = tabulate n m (fun i j => sum_prod k (f i) (fun l => g l j)).
Proof.
  intros Hk. unfold matmul. rewrite ncols_tabulate by assumption.
  unfold tabulate at 2 3. rewrite List.map_map.
  apply map_ext. intros i. apply map_seq_ext. intros j Hj.
  rewrite col_tabulate by assumption. apply dot_vec_map_seq.
Qed.

Lemma take_cols_tabulate (n m k : nat) (f : nat -> nat -> A) :
  (k <= m)%nat -> take_cols k (tabulate n m f) = tabulate n k f.
Proof.
  intros Hk. unfold take_cols, tabulate. rewrite map_map.
  apply map_ext. intros i.
  replace m with (k + (m - k))%nat by lia.
  rewrite seq_app, map_app, firstn_app.
  rewrite length_map, length_seq, Nat.sub_diag. simpl.
  rewrite app_nil_r. apply firstn_all2.
  rewrite length_map, length_seq. lia.
Qed.

Lemma sum_prod_ext (k : nat) (f g f' g' : nat -> A) :
  (forall l, (l < k)%nat -> mul (f l) (g l) = mul (f' l) (g' l)) ->
  sum_prod k f g = sum_prod k f' g'.
Proof.
  intros Heq. unfold sum_prod. f_equal. apply map_seq_ext, Heq.
Qed.
End TableFacts.

(** ** Hermitian matrices *)

Section HermitianFacts.
Context {A : Type} `{ScalarLaws A}.

Lemma shape_madd (M P : matrix A) (n m : nat) :
  shape M n m -> shape P n m -> shape (madd M P) n m.
Proof.
  intros HM HP.
  rewrite (tabulate_entry M n m HM), (tabulate_entry P n m HP), madd_tabulate.
  apply shape_tabulate.
Qed.

Lemma shape_msub (M P : matrix A) (n m : nat) :
  shape M n m -> shape P n m -> shape (msub M P) n m.
Proof.
  intros HM HP.
  rewrite (tabulate_entry M n m HM), (tabulate_entry P n m HP), msub_tabulate.
  apply shape_tabulate.
Qed.

Lemma shape_mscale (c : A) (M : matrix A) (n m : nat) :
  shape M n m -> shape (mscale c M) n m.
Proof.
  intros HM. rewrite (tabulate_entry M n m HM), mscale_tabulate.
  apply shape_tabulate.
Qed.

Lemma shape_matmul (M P : matrix A) (n k m : nat) :
  (0 < k)%nat -> shape M n k -> shape P k m -> shape (matmul M P) n m.
Proof.
  intros Hk HM HP.
  rewrite (tabulate_entry M n k HM), (tabulate_entry P k m HP).
  rewrite matmul_tabulate by assumption. apply shape_tabulate.
Qed.

Lemma adjoint_tabulate (n m : nat) (f : nat -> nat -> A) :
  (n = 0 -> m = 0)%nat ->
  conjugate (transpose (tabulate n m f))
  = tabulate m n (fun i j => conj (f j i)).
Proof.
  intros Hnm. rewrite transpose_tabulate by assumption.
  apply conjugate_tabulate.
Qed.

Lemma Hermitian_tabulate (n : nat) (f : nat -> nat -> A) :
  (forall i j, (i < n)%nat -> (j < n)%nat -> conj (f j i) = f i j) ->
  Hermitian (tabulate n n f).
Proof.
  intros Hf. unfold Hermitian. rewrite adjoint_tabulate by lia.
  apply tabulate_ext, Hf.
Qed.

Lemma Hermitian_entry (M : matrix A) (n i j : nat) :
  shape M n n -> Hermitian M -> (i < n)%nat -> (j < n)%nat ->
  conj (entry M j i) = entry M i j.
Proof.
  intros HM Hh Hi Hj. unfold Hermitian in Hh.
  rewrite (tabulate_entry M n n HM) in Hh at 1.
  rewrite adjoint_tabulate in Hh by lia.
  apply (f_equal (fun P => entry P i j)) in Hh.
  rewrite entry_tabulate in Hh by assumption. exact Hh.
Qed.

Lemma Hermitian_madd (M P : matrix A) (n : nat) :
  shape M n n -> shape P n n -> Hermitian M -> Hermitian P ->
  Hermitian (madd M P).
Proof.
  intros HM HP HhM HhP.
  pose proof (Hermitian_entry M n) as EM.
  pose proof (Hermitian_entry P n) as EP.
  rewrite (tabulate_entry M n n HM), (tabulate_entry P n n HP), madd_tabulate.
  apply Hermitian_tabulate. intros i j Hi Hj.
  rewrite conj_add, EM, EP by assumption. reflexivity.
Qed.

Lemma Hermitian_msub (M P : matrix A) (n : nat) :
  shape M n n -> shape P n n -> Hermitian M -> Hermitian P ->
  Hermitian (msub M P).
Proof.
  intros HM HP HhM HhP.
  pose proof (Hermitian_entry M n) as EM.
  pose proof (Hermitian_entry P n) as EP.
  rewrite (tabulate_entry M n n HM), (tabulate_entry P n n HP), msub_tabulate.
  apply Hermitian_tabulate. intros i j Hi Hj.
  rewrite conj_sub, EM, EP by assumption. reflexivity.
Qed.

(** Scaling by a self-conjugate (real) scalar keeps a matrix Hermitian. *)
Lemma Hermitian_mscale (c : A) (M : matrix A) (n : nat) :
  conj c = c -> shape M n n -> Hermitian M -> Hermitian (mscale c M).
Proof.
  intros Hc HM HhM.
  pose proof (Hermitian_entry M n) as EM.
  rewrite (tabulate_entry M n n HM), mscale_tabulate.
  apply Hermitian_tabulate. intros i j Hi Hj.
  rewrite conj_mul, Hc, EM by assumption. reflexivity.
Qed.

Lemma conj_fold_add (F : nat -> A) (l : list nat) :
  conj (fold_right add zero (map F l))
  = fold_right add zero (map (fun x => conj (F x)) l).
Proof.
  induction l as [|x l IH]; simpl.
  - apply conj_zero.
  - rewrite conj_add, IH. reflexivity.
Qed.

Lemma conj_sum_prod (k : nat) (f g : nat -> A) :
  conj (sum_prod k f g)
  = sum_prod k (fun l => conj (g l)) (fun l => conj (f l)).
Proof.
  unfold sum_prod. rewrite conj_fold_add. f_equal.
  apply map_seq_ext. intros l _. rewrite conj_mul. apply mul_comm.
Qed.

(** [(M @ P)^H = P^H @ M^H] *)
Lemma adjoint_matmul (M P : matrix A) (n k m : nat) :
  (0 < n)%nat -> (0 < k)%nat -> shape M n k -> shape P k m ->
  conjugate (transpose (matmul M P))
  = matmul (conjugate (transpose P)) (conjugate (transpose M)).
Proof.
  intros Hn Hk HM HP.
  rewrite (tabulate_entry M n k HM), (tabulate_entry P k m HP).
  rewrite matmul_tabulate by assumption.
  rewrite !adjoint_tabulate by lia.
  rewrite matmul_tabulate by assumption.
  apply tabulate_ext. intros i j Hi Hj. apply conj_sum_prod.
Qed.

(** A sum against a unit vector selects one term. *)
Lemma sum_prod_unit (k i : nat) (g : nat -> A) :
  (i < k)%nat ->
  sum_prod k (fun l => if (l =? i)%nat then one else zero) g = g i.
Proof.
  unfold sum_prod. revert i.
  assert (Hz : forall (s n : nat) (i : nat), (i < s)%nat ->
    fold_right add zero
      (map (fun l => mul (if (l =? i)%nat then one else zero) (g l))
           (seq s n)) = zero).
  { intros s n. revert s. induction n as [|n IH]; intros s i Hi; simpl.
    - reflexivity.
    - destruct (Nat.eqb_spec s i) as [-> | _]; [lia|].
      rewrite mul_zero_l, add_zero_l. apply IH. lia. }
  assert (Hg : forall (n s i : nat), (s <= i < s + n)%nat ->
    fold_right add zero
      (map (fun l => mul (if (l =? i)%nat then one else zero) (g l))
           (seq s n)) = g i).
  { induction n as [|n IH]; intros s i Hi; simpl; [lia|].
    destruct (Nat.eqb_spec s i) as [-> | Hne].
    - rewrite mul_one_l, Hz by lia. apply add_zero_r.
    - rewrite mul_zero_l, add_zero_l. apply IH. lia. }
  intros i Hi. apply Hg. lia.
Qed.
End HermitianFacts.

(** ** SingleChargeTransmon: the Hamiltonian in the charge basis *)

Lemma repeat_map_seq {B : Type} (x : B) (n : nat) :
  repeat x n = map (fun _ => x) (seq 0 n).
Proof.
  apply (nth_ext _ _ x x).
  - rewrite repeat_length, length_map, length_seq. reflexivity.
  - intros i Hi. rewrite repeat_length in Hi.
    rewrite nth_repeat, nth_map_seq by lia. reflexivity.
Qed.

Lemma charge_range_map_seq (m : nat) :
  arange (- Z.of_nat m) (Z.of_nat m + 1)
  = map (fun k => (- Z.of_nat m + Z.of_nat k)%Z) (seq 0 (2 * m + 1)).
Proof.
  unfold arange. replace (Z.to_nat (Z.of_nat m + 1 - - Z.of_nat m))
    with (2 * m + 1)%nat by lia.
  reflexivity.
Qed.

(** The array [Ec * (arange(-m, m+1) - 2*ng*ones(2*m+1))**2] holds
    [Ec * (n - 2*ng)^2] for the charges [n = -m, ..., m]. *)
Lemma charging_energies (m : nat) (Ec ng : R) :
  vscale Ec (map (fun x => x ^ 2)
    (vsub (to_float (arange (- Z.of_nat m) (Z.of_nat m + 1)))
          (vscale (2 * ng) (ones (2 * m + 1)))))
  = map (fun n => Ec * (IZR n - 2 * ng) ^ 2)
        (arange (- Z.of_nat m) (Z.of_nat m + 1)).
Proof.
  rewrite charge_range_map_seq. unfold vscale, vsub, to_float, ones.
  rewrite repeat_map_seq, !List.map_map, zip_with_map_same, !List.map_map.
  apply map_ext. intros k. simpl. ring.
Qed.

Lemma build_cos_phi_op_tabulate (self : SingleChargeTransmon.t) :
  let D := (2 * SingleChargeTransmon.N_max_charge self + 1)%nat in
  SingleChargeTransmon.build_cos_phi_op self
  = tabulate D D (fun i j =>
      if ((j =? i + 2) || (i =? j + 2))%nat then 0.5 else 0).
Proof.
  intros D. unfold SingleChargeTransmon.build_cos_phi_op, eye. fold D.
  rewrite madd_tabulate, mscale_tabulate.
  apply tabulate_ext. intros i j _ _. simpl.
  destruct (Z.eqb_spec (Z.of_nat j) (Z.of_nat i + 2)),
           (Z.eqb_spec (Z.of_nat j) (Z.of_nat i + -2)),
           (Nat.eqb_spec j (i + 2)), (Nat.eqb_spec i (j + 2));
    simpl; try lia; lra.
Qed.

Lemma transmon_common_ops_Raise (self : SingleChargeTransmon.t) :
  (2 * SingleChargeTransmon.N_max_charge self + 1
     < SingleChargeTransmon.N self)%nat ->
  SingleChargeTransmon.common_ops self = Raise AssertionError.
Proof.
  intros Hgt. unfold SingleChargeTransmon.common_ops.
  rewrite (proj2 (Nat.leb_gt _ _) Hgt). reflexivity.
Qed.

Lemma transmon_common_ops_Ok (self : SingleChargeTransmon.t) :
  (SingleChargeTransmon.N self
     <= 2 * SingleChargeTransmon.N_max_charge self + 1)%nat ->
  SingleChargeTransmon.common_ops self
  = Ok {| SingleChargeTransmon.n := SingleChargeTransmon.build_n_op self;
          SingleChargeTransmon.cos_phi :=
            SingleChargeTransmon.build_cos_phi_op self;
          SingleChargeTransmon.cos_phi_2 :=
            SingleChargeTransmon.build_cos_phi_2_op self;
          SingleChargeTransmon.sin_phi_2 :=
            SingleChargeTransmon.build_sin_phi_2_op self |}.
Proof.
  intros Hle. unfold SingleChargeTransmon.common_ops.
  rewrite (proj2 (Nat.leb_le _ _) Hle). reflexivity.
Qed.

Lemma transmon_get_H_full_Ok (self : SingleChargeTransmon.t) (Ec Ej ng : R) :
  let m := SingleChargeTransmon.N_max_charge self in
  SingleChargeTransmon.params self !! "Ec" = Some Ec ->
  SingleChargeTransmon.params self !! "Ej" = Some Ej ->
  SingleChargeTransmon.params self !! "ng" = Some ng ->
  (SingleChargeTransmon.N self <= 2 * m + 1)%nat ->
  SingleChargeTransmon.get_H_full self
  = Ok (msub (diag (map (fun n => Ec * (IZR n - 2 * ng) ^ 2)
                        (arange (- Z.of_nat m) (Z.of_nat m + 1))))
             (mscale Ej (SingleChargeTransmon.build_cos_phi_op self))).
Proof.
  intros m HEc HEj Hng Hle.
  rewrite <- charging_energies.
  unfold SingleChargeTransmon.get_H_full, SingleChargeTransmon.linear_ops.
  rewrite (getitem_Some _ _ _ HEc), (getitem_Some _ _ _ HEj),
    (getitem_Some _ _ _ Hng), (transmon_common_ops_Ok self Hle).
  reflexivity.
Qed.

(** C6: with a valid truncation, [get_H_full()] is the diagonal array of
    [Ec*(n - 2*ng)^2], [n = -N_max_charge..N_max_charge], minus [Ej] times the
    [cos(phi)] operator; that operator has [1/2] exactly where the two indices
    differ by two, and for [N_max_charge = 1] it is the 3 by 3 array with
    [0.5] at [(0,2)] and [(2,0)]. *)
Theorem transmon_get_H_full (self : SingleChargeTransmon.t) (Ec Ej ng : R) :
  let m := SingleChargeTransmon.N_max_charge self in
  let D := (2 * m + 1)%nat in
  SingleChargeTransmon.params self !! "Ec" = Some Ec ->
  SingleChargeTransmon.params self !! "Ej" = Some Ej ->
  SingleChargeTransmon.params self !! "ng" = Some ng ->
  (SingleChargeTransmon.N self <= D)%nat ->
  (exists H,
     SingleChargeTransmon.get_H_full self = Ok H
     /\ H = msub (diag (map (fun n => Ec * (IZR n - 2 * ng) ^ 2)
                            (arange (- Z.of_nat m) (Z.of_nat m + 1))))
                 (mscale Ej (SingleChargeTransmon.build_cos_phi_op self))
     /\ shape H D D
     /\ forall i j, (i < D)%nat -> (j < D)%nat ->
          entry H i j
          = (if (i =? j)%nat then Ec * (IZR (Z.of_nat i - Z.of_nat m) - 2 * ng) ^ 2
             else 0)
            - Ej * entry (SingleChargeTransmon.build_cos_phi_op self) i j)
  /\ shape (SingleChargeTransmon.build_cos_phi_op self) D D
  /\ (forall i j, (i < D)%nat -> (j < D)%nat ->
        entry (SingleChargeTransmon.build_cos_phi_op self) i j
        = if ((j =? i + 2) || (i =? j + 2))%nat then 0.5 else 0)
  /\ (m = 1%nat ->
      SingleChargeTransmon.build_cos_phi_op self
      = [[0; 0; 0.5]; [0; 0; 0]; [0.5; 0; 0]]).
Proof.
  intros m D HEc HEj Hng Hle.
  pose proof (build_cos_phi_op_tabulate self) as Hcos. cbv zeta in Hcos.
  fold m in Hcos. fold D in Hcos.
  split; [| split; [| split]].
  - eexists. split; [apply (transmon_get_H_full_Ok self Ec Ej ng); assumption|].
    fold m. split; [reflexivity|].
    rewrite Hcos. unfold diag.
    rewrite length_map, length_charge_range. fold D.
    rewrite mscale_tabulate, msub_tabulate.
    split; [apply shape_tabulate|].
    intros i j Hi Hj. rewrite !entry_tabulate by assumption.
    unfold sub, mul; simpl. f_equal.
    destruct (Nat.eqb_spec i j) as [-> | _]; [| reflexivity].
    rewrite (nth_indep _ 0 (Ec * (IZR 0 - 2 * ng) ^ 2))
      by (rewrite length_map, length_charge_range; assumption).
    rewrite (map_nth (fun n => Ec * (IZR n - 2 * ng) ^ 2)).
    rewrite nth_arange by (unfold D in Hj; lia).
    replace (- Z.of_nat m + Z.of_nat j)%Z with (Z.of_nat j - Z.of_nat m)%Z
      by lia.
    ring.
  - rewrite Hcos. apply shape_tabulate.
  - intros i j Hi Hj. rewrite Hcos. apply entry_tabulate; assumption.
  - intros Hm. rewrite Hcos. unfold D. rewrite Hm. reflexivity.
Qed.

Lemma transmon_get_H_full_witness :
  (exists H, SingleChargeTransmon.get_H_full transmon_valid = Ok H)
  /\ SingleChargeTransmon.build_cos_phi_op transmon_valid
     = [[0; 0; 0.5]; [0; 0; 0]; [0.5; 0; 0]].
Proof.
  destruct (transmon_get_H_full transmon_valid 1 10 0.25)
    as ((H & HH & _) & _ & _ & H3); try reflexivity.
  - simpl. lia.
  - split; [exists H; exact HH | apply H3; reflexivity].
Defined.

(** ** SingleChargeTransmon: projection onto the truncated eigenbasis *)

Section ProjectionFacts.
Context {A : Type} `{ScalarLaws A}.

Lemma eye_0_tabulate (n : nat) :
  eye n 0 = tabulate n n (fun i j => if (j =? i)%nat then one else zero).
Proof.
  unfold eye. apply tabulate_ext. intros i j _ _.
  destruct (Z.eqb_spec (Z.of_nat j) (Z.of_nat i + 0)), (Nat.eqb_spec j i);
    try lia; reflexivity.
Qed.

Lemma shape_eye (n : nat) (k : Z) : shape (eye n k : matrix A) n n.
Proof. unfold eye. apply shape_tabulate. Qed.

(** The inner product of two columns, written on the entries. *)
Lemma vdot_col (V : matrix A) (n m i j : nat) :
  shape V n m -> (i < m)%nat -> (j < m)%nat ->
  vdot (col i V) (col j V)
  = sum_prod n (fun l => conj (entry V l i)) (fun l => entry V l j).
Proof.
  intros HV Hi Hj. unfold vdot.
  rewrite (tabulate_entry V n m HV) at 1 2.
  rewrite !col_tabulate by assumption.
  rewrite List.map_map. apply dot_vec_map_seq.
Qed.

Lemma orthonormal_columns_eye (n : nat) : orthonormal_columns (eye n 0).
Proof.
  destruct n as [|n]; [intros i j Hi; unfold ncols in Hi; simpl in Hi; lia|].
  intros i j Hi Hj.
  pose proof (shape_eye (S n) 0) as Hs.
  rewrite (shape_ncols _ (S n) (S n) Hs) in Hi, Hj by lia.
  rewrite (vdot_col _ (S n) (S n)) by assumption.
  rewrite eye_0_tabulate.
  rewrite (sum_prod_ext _ _ _
             (fun l => if (l =? i)%nat then one else zero)
             (fun l => if (j =? l)%nat then one else zero)).
  - rewrite sum_prod_unit by assumption.
    rewrite Nat.eqb_sym. reflexivity.
  - intros l Hl. rewrite !entry_tabulate by assumption.
    rewrite (Nat.eqb_sym i l).
    destruct (l =? i)%nat; [rewrite conj_one | rewrite conj_zero];
      reflexivity.
Qed.

(** [E^H @ (I @ E)] is the identity of size [k] when [E] holds the first
    [k] columns of a matrix with orthonormal columns. *)
Lemma projection_of_identity (V : matrix A) (n k : nat) :
  (0 < n)%nat -> (k <= n)%nat -> shape V n n -> orthonormal_columns V ->
  matmul (conjugate (transpose (take_cols k V)))
         (matmul (eye n 0) (take_cols k V))
  = eye k 0.
Proof.
  intros Hn Hk HV Horth.
  assert (Hdot : forall i j, (i < n)%nat -> (j < n)%nat ->
    sum_prod n (fun l => conj (entry V l i)) (fun l => entry V l j)
    = if (i =? j)%nat then one else zero).
  { intros i j Hi Hj. rewrite <- (vdot_col V n n) by assumption.
    apply Horth; rewrite (shape_ncols V n n); assumption. }
  rewrite (tabulate_entry V n n HV) at 1 2.
  rewrite take_cols_tabulate by assumption.
  rewrite eye_0_tabulate, matmul_tabulate by assumption.
  rewrite adjoint_tabulate by lia.
  rewrite matmul_tabulate by assumption.
  rewrite eye_0_tabulate.
  apply tabulate_ext. intros i j Hi Hj.
  rewrite (sum_prod_ext _ _ _
             (fun l => conj (entry V l i)) (fun l => entry V l j)).
  - rewrite Hdot by lia. rewrite Nat.eqb_sym. reflexivity.
  - intros l Hl. f_equal.
    apply (sum_prod_unit n l (fun x => entry V x j) Hl).
Qed.
End ProjectionFacts.

Lemma bind_Ok {X Y : Type} (x : X) (f : X -> result Y) : (Ok x ≫= f) = f x.
Proof. reflexivity. Qed.

Lemma bind_Ok_inv {X Y : Type} (m : result X) (f : X -> result Y) (y : Y) :
  (m ≫= f) = Ok y -> exists x, m = Ok x /\ f x = Ok y.
Proof.
  destruct m as [x | e]; simpl; intros Hm; [| discriminate].
  exists x. split; [reflexivity | exact Hm].
Qed.

Section ShapeFacts.
Context {A : Type} `{Scalar A}.

Lemma shape_take_cols (V : matrix A) (n m k : nat) :
  shape V n m -> (k <= m)%nat -> shape (take_cols k V) n k.
Proof.
  intros HV Hk. rewrite (tabulate_entry V n m HV).
  rewrite take_cols_tabulate by assumption. apply shape_tabulate.
Qed.

Lemma shape_adjoint (M : matrix A) (n m : nat) :
  shape M n m -> (n = 0 -> m = 0)%nat ->
  shape (conjugate (transpose M)) m n.
Proof.
  intros HM Hnm. rewrite (tabulate_entry M n m HM).
  rewrite transpose_tabulate, conjugate_tabulate by assumption.
  apply shape_tabulate.
Qed.
End ShapeFacts.

(** A device whose [eig_systems] could be computed has a valid truncation:
    the diagonalized Hamiltonian is built from [linear_ops]. *)
Lemma transmon_eig_systems_valid (eigh : matrix R -> vector R * matrix C)
    (self : SingleChargeTransmon.t) (es : SingleChargeTransmon.eig) :
  SingleChargeTransmon.eig_systems eigh self = Ok es ->
  (SingleChargeTransmon.N self
     <= 2 * SingleChargeTransmon.N_max_charge self + 1)%nat.
Proof.
  unfold SingleChargeTransmon.eig_systems. intros Hes.
  apply bind_Ok_inv in Hes. destruct Hes as (Hm & HH & _).
  destruct (SingleChargeTransmon.use_linear self).
  - discriminate.
  - unfold SingleChargeTransmon.get_H_full in HH.
    apply bind_Ok_inv in HH. destruct HH as (ng & _ & HH).
    apply bind_Ok_inv in HH. destruct HH as (Ec & _ & HH).
    apply bind_Ok_inv in HH. destruct HH as (Ej & _ & HH).
    apply bind_Ok_inv in HH. destruct HH as (o & Ho & _).
    unfold SingleChargeTransmon.linear_ops in Ho.
    destruct (Nat.le_gt_cases (SingleChargeTransmon.N self)
                (2 * SingleChargeTransmon.N_max_charge self + 1)) as [Hle | Hgt];
      [exact Hle|].
    rewrite (transmon_common_ops_Raise self Hgt) in Ho. discriminate.
Qed.

(** C9: when [eig_systems] is available and its ["vecs"] is a square array of
    the working dimension with orthonormal columns, projecting the identity of
    that dimension gives the [N] by [N] identity. *)
Theorem transmon_identity_roundtrip
    (eigh : matrix R -> vector R * matrix C)
    (self : SingleChargeTransmon.t) (es : SingleChargeTransmon.eig) :
  let D := (2 * SingleChargeTransmon.N_max_charge self + 1)%nat in
  SingleChargeTransmon.eig_systems eigh self = Ok es ->
  shape (SingleChargeTransmon.vecs es) D D ->
  orthonormal_columns (SingleChargeTransmon.vecs es) ->
  SingleChargeTransmon.get_op_in_H_eigenbasis eigh self (identity D)
  = Ok (identity (SingleChargeTransmon.N self)).
Proof.
  intros D Hes HV Horth.
  pose proof (transmon_eig_systems_valid eigh self es Hes) as Hle. fold D in Hle.
  assert (HD : (0 < D)%nat) by (unfold D; lia).
  set (N := SingleChargeTransmon.N self) in *.
  set (V := SingleChargeTransmon.vecs es) in *.
  pose proof (shape_take_cols V D D N HV Hle) as HE.
  pose proof (shape_adjoint _ D N HE ltac:(lia)) as HEh.
  assert (HI : shape (matmul (identity D) (take_cols N V)) D N).
  { apply (shape_matmul _ _ D D N HD); [apply shape_eye | exact HE]. }
  unfold SingleChargeTransmon.get_op_in_H_eigenbasis.
  rewrite Hes, bind_Ok. fold N. fold V.
  assert (Hdot1 : dot (identity D) (take_cols N V)
                  = Ok (matmul (identity D) (take_cols N V))).
  { unfold dot.
    rewrite (shape_ncols (identity D) D D (shape_eye D 0) HD).
    unfold nrows at 2. rewrite (proj1 HE), Nat.eqb_refl, orb_true_r.
    reflexivity. }
  rewrite Hdot1, bind_Ok. unfold dot.
  assert (Hok : ((nrows (conjugate (transpose (take_cols N V))) =? 0)
                 || (ncols (conjugate (transpose (take_cols N V)))
                     =? nrows (matmul (identity D) (take_cols N V))))%nat
                = true).
  { unfold nrows. rewrite (proj1 HEh), (proj1 HI).
    destruct (Nat.eqb_spec N 0) as [HN0 | HN0]; [reflexivity|].
    rewrite (shape_ncols _ N D HEh) by lia.
    rewrite Nat.eqb_refl. reflexivity. }
  rewrite Hok. f_equal. unfold identity.
  apply projection_of_identity; assumption.
Qed.

Lemma transmon_identity_roundtrip_witness :
  SingleChargeTransmon.get_op_in_H_eigenbasis eigh_diagonal transmon_valid
    (identity 3)
  = Ok (identity 2).
Proof.
  assert (Hle : (SingleChargeTransmon.N transmon_valid
                 <= 2 * SingleChargeTransmon.N_max_charge transmon_valid + 1)%nat)
    by (simpl; lia).
  pose proof (transmon_get_H_full_Ok transmon_valid 1 10 0.25
                eq_refl eq_refl eq_refl Hle) as HH.
  cbv zeta in HH.
  set (H := msub _ _) in HH.
  assert (HlenH : length H = 3%nat) by reflexivity.
  apply (transmon_identity_roundtrip eigh_diagonal transmon_valid
           {| SingleChargeTransmon.vals := fst (eigh_diagonal H);
              SingleChargeTransmon.vecs := snd (eigh_diagonal H) |}).
  - unfold SingleChargeTransmon.eig_systems.
    change (SingleChargeTransmon.use_linear transmon_valid) with false.
    cbv iota. rewrite HH. reflexivity.
  - change (shape (identity (length H)) 3 3).
    rewrite HlenH. apply (shape_eye 3 0).
  - change (orthonormal_columns (identity (length H))).
    apply orthonormal_columns_eye.
Defined.

(** ** Fluxonium: the Hamiltonians in the oscillator basis *)

Lemma mscale_r_mscale (M : matrix C) (c : R) : mscale_r M c = mscale (RtoC c) M.
Proof.
  unfold mscale_r, mscale, vscale. apply map_ext. intros r.
  apply map_ext. intros z. apply mul_comm.
Qed.

Lemma fluxonium_common_ops_Ok (cosm sinm : matrix C -> matrix C)
    (self : Fluxonium.t) (Ec El : R) :
  let N := Fluxonium.N_pre_diag self in
  let phi := mscale (RtoC (float_pow (2 * Ec / El) 0.25))
                    (madd (destroy N) (create N)) in
  Fluxonium.params self !! "Ec" = Some Ec ->
  Fluxonium.params self !! "El" = Some El ->
  Fluxonium.common_ops cosm sinm self
  = Ok {| Fluxonium.id := identity N;
          Fluxonium.a := destroy N;
          Fluxonium.a_dag := create N;
          Fluxonium.phi := phi;
          Fluxonium.n :=
            mscale (mul Ci (RtoC (float_pow (El / (32 * Ec)) 0.25)))
                   (msub (create N) (destroy N));
          Fluxonium.cos_phi_2 := cosm (mdiv_real phi 2);
          Fluxonium.sin_phi_2 := sinm (mdiv_real phi 2) |}.
Proof.
  intros N phi HEc HEl.
  unfold Fluxonium.common_ops, Fluxonium.phi_zpf, Fluxonium.n_zpf.
  rewrite (getitem_Some _ _ _ HEc), (getitem_Some _ _ _ HEl).
  reflexivity.
Qed.

Lemma fluxonium_get_H_linear_Ok (cosm sinm : matrix C -> matrix C)
    (self : Fluxonium.t) (Ec El : R) :
  let N := Fluxonium.N_pre_diag self in
  Fluxonium.params self !! "Ec" = Some Ec ->
  Fluxonium.params self !! "El" = Some El ->
  Fluxonium.get_H_linear cosm sinm self
  = Ok (mscale (RtoC (sqrt (8 * Ec * El)))
          (madd (matmul (create N) (destroy N))
                (mscale (RtoC 0.5) (identity N)))).
Proof.
  intros N HEc HEl.
  unfold Fluxonium.get_H_linear, Fluxonium.linear_ops, Fluxonium.get_linear_ω.
  rewrite (fluxonium_common_ops_Ok cosm sinm self Ec El HEc HEl).
  rewrite (getitem_Some _ _ _ HEc), (getitem_Some _ _ _ HEl).
  reflexivity.
Qed.

Lemma fluxonium_get_H_full_Ok (cosm sinm : matrix C -> matrix C)
    (self : Fluxonium.t) (Ec El Ej phi_ext : R) :
  let N := Fluxonium.N_pre_diag self in
  let H_linear :=
    mscale (RtoC (sqrt (8 * Ec * El)))
      (madd (matmul (create N) (destroy N))
            (mscale (RtoC 0.5) (identity N))) in
  let phi := mscale (RtoC (float_pow (2 * Ec / El) 0.25))
                    (madd (destroy N) (create N)) in
  Fluxonium.params self !! "Ec" = Some Ec ->
  Fluxonium.params self !! "El" = Some El ->
  Fluxonium.params self !! "Ej" = Some Ej ->
  Fluxonium.params self !! "phi_ext" = Some phi_ext ->
  Fluxonium.get_H_full cosm sinm self
  = Ok (msub H_linear
          (mscale (RtoC Ej)
             (madd (mscale (RtoC (cos (2 * PI * phi_ext))) (cosm phi))
                   (mscale (RtoC (sin (2 * PI * phi_ext))) (sinm phi))))).
Proof.
  intros N H_linear phi HEc HEl HEj Hext.
  unfold Fluxonium.get_H_full, Fluxonium.linear_ops.
  rewrite (fluxonium_get_H_linear_Ok cosm sinm self Ec El HEc HEl).
  rewrite (fluxonium_common_ops_Ok cosm sinm self Ec El HEc HEl).
  rewrite (getitem_Some _ _ _ HEj), (getitem_Some _ _ _ Hext).
  rewrite !bind_Ok. cbv zeta. cbn [Fluxonium.phi].
  rewrite !mscale_r_mscale. reflexivity.
Qed.

Lemma sum_prod_zero {A : Type} `{ScalarLaws A} (k : nat) (f g : nat -> A) :
  (forall l, (l < k)%nat -> f l = zero) -> sum_prod k f g = zero.
Proof.
  intros Hf. unfold sum_prod.
  assert (Hall : forall l, In l (seq 0 k) -> mul (f l) (g l) = zero).
  { intros l Hl. apply in_seq in Hl. rewrite Hf by lia. apply mul_zero_l. }
  induction (seq 0 k) as [|x xs IH]; simpl; [reflexivity|].
  rewrite Hall by (left; reflexivity).
  rewrite add_zero_l. apply IH. intros l Hl. apply Hall. right. exact Hl.
Qed.

Lemma shape_destroy (n : nat) : shape (destroy n) n n.
Proof. apply shape_tabulate. Qed.

Lemma shape_create (n : nat) : shape (create n) n n.
Proof. apply shape_tabulate. Qed.

(** [a_dag @ a] is the number operator [diag(0, 1, ..., n-1)]. *)
Lemma number_operator (n : nat) :
  matmul (create n) (destroy n)
  = tabulate n n (fun i j => if (i =? j)%nat then RtoC (INR i) else zero).
Proof.
  destruct n as [|n]; [reflexivity|].
  unfold create, destroy. rewrite matmul_tabulate by lia.
  apply tabulate_ext. intros i j Hi Hj.
  destruct i as [|i].
  - rewrite sum_prod_zero.
    + destruct (0 =? j)%nat; reflexivity.
    + intros l _. destruct (Nat.eqb_spec 0 (l + 1)); [lia | reflexivity].
  - rewrite (sum_prod_ext _ _ _
               (fun l => if (l =? i)%nat then one else zero)
               (fun l => mul (RtoC (sqrt (INR (S i))))
                             (if (j =? l + 1)%nat then RtoC (sqrt (INR j))
                              else zero))).
    + rewrite sum_prod_unit by lia.
      destruct (Nat.eqb_spec j (i + 1)) as [Heq | Hne],
               (Nat.eqb_spec (S i) j) as [Heq' | Hne']; try lia.
      * rewrite <- Heq', Cmul_RtoC, sqrt_sqrt by apply pos_INR. reflexivity.
      * rewrite mul_comm. apply mul_zero_l.
    + intros l Hl.
      destruct (Nat.eqb_spec (S i) (l + 1)), (Nat.eqb_spec l i); try lia.
      * rewrite mul_one_l. reflexivity.
      * rewrite !mul_zero_l. reflexivity.
Qed.

(** C5: [get_H_linear()] is [omega * (a_dag @ a + 0.5 * id)] with
    [omega = sqrt(8*Ec*El)], that is the diagonal array of
    [omega * (k + 0.5)]; [get_H_full()] is [get_H_linear()] minus [Ej] times
    [cosm(phi)*cos(2*pi*phi_ext) + sinm(phi)*sin(2*pi*phi_ext)], with the
    matrix functions applied to the flux operator [phi_zpf * (a + a_dag)]
    itself, not to its half. *)
Theorem fluxonium_hamiltonians (cosm sinm : matrix C -> matrix C)
    (self : Fluxonium.t) (Ec El Ej phi_ext : R) :
  let N := Fluxonium.N_pre_diag self in
  let omega := sqrt (8 * Ec * El) in
  let H_linear :=
    mscale (RtoC omega)
      (madd (matmul (create N) (destroy N))
            (mscale (RtoC 0.5) (identity N))) in
  let phi := mscale (RtoC (float_pow (2 * Ec / El) 0.25))
                    (madd (destroy N) (create N)) in
  Fluxonium.params self !! "Ec" = Some Ec ->
  Fluxonium.params self !! "El" = Some El ->
  Fluxonium.params self !! "Ej" = Some Ej ->
  Fluxonium.params self !! "phi_ext" = Some phi_ext ->
  0 < Ec -> 0 < El ->
  Fluxonium.get_H_linear cosm sinm self = Ok H_linear
  /\ shape H_linear N N
  /\ (forall i j, (i < N)%nat -> (j < N)%nat ->
        entry H_linear i j
        = if (i =? j)%nat then RtoC (omega * (INR i + 0.5)) else zero)
  /\ Fluxonium.get_H_full cosm sinm self
     = Ok (msub H_linear
             (mscale (RtoC Ej)
                (madd (mscale (RtoC (cos (2 * PI * phi_ext))) (cosm phi))
                      (mscale (RtoC (sin (2 * PI * phi_ext))) (sinm phi))))).
Proof.
  intros N omega H_linear phi HEc HEl HEj Hext _ _.
  split; [apply (fluxonium_get_H_linear_Ok cosm sinm self Ec El HEc HEl)|].
  assert (Htab : H_linear
    = tabulate N N (fun i j =>
        mul (RtoC omega)
          (add (if (i =? j)%nat then RtoC (INR i) else zero)
               (mul (RtoC 0.5) (if (j =? i)%nat then one else zero))))).
  { unfold H_linear, identity.
    rewrite number_operator, eye_0_tabulate, mscale_tabulate, madd_tabulate.
    apply mscale_tabulate. }
  split; [rewrite Htab; apply shape_tabulate|].
  split.
  - intros i j Hi Hj. rewrite Htab, entry_tabulate by assumption.
    rewrite (Nat.eqb_sym j i).
    destruct (i =? j)%nat; unfold mul, add, zero, one; simpl;
      unfold Cmul, Cadd, RtoC; apply C_eq; simpl; ring.
  - apply (fluxonium_get_H_full_Ok cosm sinm self Ec El Ej phi_ext);
      assumption.
Qed.

Lemma fluxonium_hamiltonians_witness :
  exists H_linear H_full,
    Fluxonium.get_H_linear cosm_order0 sinm_order1
      (fluxonium_sample Fluxonium.full) = Ok H_linear
    /\ Fluxonium.get_H_full cosm_order0 sinm_order1
         (fluxonium_sample Fluxonium.full) = Ok H_full
    /\ entry H_linear 2 2 = RtoC (sqrt (8 * 1 * 4) * (INR 2 + 0.5)).
Proof.
  destruct (fluxonium_hamiltonians cosm_order0 sinm_order1
              (fluxonium_sample Fluxonium.full) 1 4 8 0.5)
    as (Hlin & _ & Hent & Hfull); try reflexivity; try lra.
  eexists. eexists. split; [exact Hlin|]. split; [exact Hfull|].
  apply (Hent 2%nat 2%nat); simpl; lia.
Defined.

(** ** Hermiticity of the Hamiltonians *)

Lemma adjoint_destroy (n : nat) : conjugate (transpose (destroy n)) = create n.
Proof.
  unfold destroy, create. rewrite adjoint_tabulate by lia.
  apply tabulate_ext. intros i j _ _.
  destruct (i =? j + 1)%nat; [apply Cconj_RtoC | apply conj_zero].
Qed.

Lemma adjoint_create (n : nat) : conjugate (transpose (create n)) = destroy n.
Proof.
  unfold destroy, create. rewrite adjoint_tabulate by lia.
  apply tabulate_ext. intros i j _ _.
  destruct (j =? i + 1)%nat; [apply Cconj_RtoC | apply conj_zero].
Qed.

Lemma Hermitian_number_operator (n : nat) :
  Hermitian (matmul (create n) (destroy n)).
Proof.
  destruct n as [|n]; [reflexivity|].
  unfold Hermitian.
  rewrite (adjoint_matmul _ _ (S n) (S n) (S n))
    by (lia || apply shape_create || apply shape_destroy).
  rewrite adjoint_destroy, adjoint_create. reflexivity.
Qed.

Lemma Hermitian_eye_0 {A : Type} `{ScalarLaws A} (n : nat) :
  Hermitian (eye n 0 : matrix A).
Proof.
  rewrite eye_0_tabulate. apply Hermitian_tabulate. intros i j _ _.
  rewrite (Nat.eqb_sym i j).
  destruct (j =? i)%nat; [apply conj_one | apply conj_zero].
Qed.

(** [a + a_dag] is Hermitian. *)
Lemma Hermitian_destroy_plus_create (n : nat) :
  Hermitian (madd (destroy n) (create n)).
Proof.
  unfold destroy, create. rewrite madd_tabulate.
  apply Hermitian_tabulate. intros i j _ _.
  destruct (i =? j + 1)%nat, (j =? i + 1)%nat;
    unfold conj, add, zero; simpl; unfold Cconj, Cadd, RtoC;
    apply C_eq; simpl; ring.
Qed.

Lemma Hermitian_diag_real (v : vector R) : Hermitian (diag v).
Proof.
  unfold diag. apply Hermitian_tabulate. intros i j _ _.
  rewrite (Nat.eqb_sym j i).
  destruct (Nat.eqb_spec i j) as [-> | _]; reflexivity.
Qed.

Lemma Hermitian_build_cos_phi_op (self : SingleChargeTransmon.t) :
  Hermitian (SingleChargeTransmon.build_cos_phi_op self).
Proof.
  rewrite build_cos_phi_op_tabulate. apply Hermitian_tabulate.
  intros i j _ _. rewrite orb_comm. reflexivity.
Qed.

Lemma shape_diag {A : Type} `{Scalar A} (v : vector A) :
  shape (diag v) (length v) (length v).
Proof. apply shape_tabulate. Qed.

Section Hermiticity.
(** The contract of the matrix cosine and sine: on a square Hermitian
    argument they return a Hermitian matrix of the same shape. *)
Variables cosm sinm : matrix C -> matrix C.
Hypothesis cosm_shape : forall M n, shape M n n -> shape (cosm M) n n.
Hypothesis sinm_shape : forall M n, shape M n n -> shape (sinm M) n n.
Hypothesis cosm_Hermitian :
  forall M n, shape M n n -> Hermitian M -> Hermitian (cosm M).
Hypothesis sinm_Hermitian :
  forall M n, shape M n n -> Hermitian M -> Hermitian (sinm M).

Lemma Hermitian_fluxonium_H_linear (n : nat) (w : R) :
  let H := mscale (RtoC w)
             (madd (matmul (create n) (destroy n))
                   (mscale (RtoC 0.5) (identity n))) in
  shape H n n /\ Hermitian H.
Proof.
  intros H.
  assert (Hnum : shape (matmul (create n) (destroy n)) n n).
  { rewrite number_operator. apply shape_tabulate. }
  assert (Hid : shape (mscale (RtoC 0.5) (identity n)) n n)
    by apply shape_mscale, shape_eye.
  split.
  - apply shape_mscale, shape_madd; assumption.
  - apply (Hermitian_mscale _ _ n); [apply Cconj_RtoC | |].
    + apply shape_madd; assumption.
    + apply (Hermitian_madd _ _ n); try assumption.
      * apply Hermitian_number_operator.
      * apply (Hermitian_mscale _ _ n);
          [apply Cconj_RtoC | apply shape_eye | apply Hermitian_eye_0].
Qed.

Lemma Hermitian_fluxonium_phi (n : nat) (z : R) :
  let phi := mscale (RtoC z) (madd (destroy n) (create n)) in
  shape phi n n /\ Hermitian phi.
Proof.
  intros phi.
  assert (Hs : shape (madd (destroy n) (create n)) n n)
    by (apply shape_madd; [apply shape_destroy | apply shape_create]).
  split.
  - apply shape_mscale, Hs.
  - apply (Hermitian_mscale _ _ n);
      [apply Cconj_RtoC | exact Hs | apply Hermitian_destroy_plus_create].
Qed.

(** C1: for a valid parameter set (the keys that the method reads, positive
    [Ec] and [El] for the fluxonium, a valid truncation for the transmon), the
    Hamiltonians returned by [Fluxonium.get_H_linear], [Fluxonium.get_H_full]
    and [SingleChargeTransmon.get_H_full] equal their conjugate transposes. *)
Theorem hamiltonians_Hermitian :
  (forall (self : Fluxonium.t) (Ec El : R),
     Fluxonium.params self !! "Ec" = Some Ec ->
     Fluxonium.params self !! "El" = Some El ->
     0 < Ec -> 0 < El ->
     exists H, Fluxonium.get_H_linear cosm sinm self = Ok H /\ Hermitian H)
  /\ (forall (self : Fluxonium.t) (Ec El Ej phi_ext : R),
        Fluxonium.params self !! "Ec" = Some Ec ->
        Fluxonium.params self !! "El" = Some El ->
        Fluxonium.params self !! "Ej" = Some Ej ->
        Fluxonium.params self !! "phi_ext" = Some phi_ext ->
        0 < Ec -> 0 < El ->
        exists H, Fluxonium.get_H_full cosm sinm self = Ok H /\ Hermitian H)
  /\ (forall (self : SingleChargeTransmon.t) (Ec Ej ng : R),
        SingleChargeTransmon.params self !! "Ec" = Some Ec ->
        SingleChargeTransmon.params self !! "Ej" = Some Ej ->
        SingleChargeTransmon.params self !! "ng" = Some ng ->
        (SingleChargeTransmon.N self
           <= 2 * SingleChargeTransmon.N_max_charge self + 1)%nat ->
        exists H, SingleChargeTransmon.get_H_full self = Ok H /\ Hermitian H).
Proof.
  split; [| split].
  - intros self Ec El HEc HEl _ _. eexists. split.
    + apply (fluxonium_get_H_linear_Ok cosm sinm self Ec El HEc HEl).
    + apply Hermitian_fluxonium_H_linear.
  - intros self Ec El Ej phi_ext HEc HEl HEj Hext _ _. eexists. split.
    + apply (fluxonium_get_H_full_Ok cosm sinm self Ec El Ej phi_ext);
        assumption.
    + cbv zeta.
      set (n := Fluxonium.N_pre_diag self).
      destruct (Hermitian_fluxonium_H_linear n (sqrt (8 * Ec * El)))
        as [Hls Hlh].
      destruct (Hermitian_fluxonium_phi n (float_pow (2 * Ec / El) 0.25))
        as [Hps Hph].
      cbv zeta in Hls, Hlh, Hps, Hph.
      set (phi := mscale _ (madd (destroy n) (create n))) in *.
      assert (Hc : shape (mscale (RtoC (cos (2 * PI * phi_ext))) (cosm phi)) n n)
        by (apply shape_mscale, cosm_shape, Hps).
      assert (Hs : shape (mscale (RtoC (sin (2 * PI * phi_ext))) (sinm phi)) n n)
        by (apply shape_mscale, sinm_shape, Hps).
      apply (Hermitian_msub _ _ n); try assumption.
      * apply shape_mscale, shape_madd; assumption.
      * apply (Hermitian_mscale _ _ n);
          [apply Cconj_RtoC | apply shape_madd; assumption |].
        apply (Hermitian_madd _ _ n); try assumption.
        -- apply (Hermitian_mscale _ _ n);
             [apply Cconj_RtoC | apply cosm_shape, Hps
             | apply (cosm_Hermitian _ n); assumption].
        -- apply (Hermitian_mscale _ _ n);
             [apply Cconj_RtoC | apply sinm_shape, Hps
             | apply (sinm_Hermitian _ n); assumption].
  - intros self Ec Ej ng HEc HEj Hng Hle. eexists. split.
    + apply (transmon_get_H_full_Ok self Ec Ej ng); assumption.
    + set (D := (2 * SingleChargeTransmon.N_max_charge self + 1)%nat).
      assert (Hd : shape (diag (map (fun n => Ec * (IZR n - 2 * ng) ^ 2)
                   (arange (- Z.of_nat (SingleChargeTransmon.N_max_charge self))
                      (Z.of_nat (SingleChargeTransmon.N_max_charge self) + 1))))
                   D D).
      { pose proof (shape_diag (map (fun n => Ec * (IZR n - 2 * ng) ^ 2)
                   (arange (- Z.of_nat (SingleChargeTransmon.N_max_charge self))
                      (Z.of_nat (SingleChargeTransmon.N_max_charge self) + 1))))
          as Hsd.
        rewrite length_map, length_charge_range in Hsd. exact Hsd. }
      assert (Hc : shape (SingleChargeTransmon.build_cos_phi_op self) D D).
      { rewrite build_cos_phi_op_tabulate. apply shape_tabulate. }
      apply (Hermitian_msub _ _ D).
      * exact Hd.
      * apply shape_mscale, Hc.
      * apply Hermitian_diag_real.
      * apply (Hermitian_mscale _ _ D);
          [reflexivity | exact Hc | apply Hermitian_build_cos_phi_op].
Qed.
End Hermiticity.

Lemma hamiltonians_Hermitian_witness :
  (exists H, Fluxonium.get_H_linear cosm_order0 sinm_order1
               (fluxonium_sample Fluxonium.full) = Ok H /\ Hermitian H)
  /\ (exists H, Fluxonium.get_H_full cosm_order0 sinm_order1
                  (fluxonium_sample Fluxonium.full) = Ok H /\ Hermitian H)
  /\ (exists H, SingleChargeTransmon.get_H_full transmon_valid = Ok H
                /\ Hermitian H).
Proof.
  destruct (hamiltonians_Hermitian cosm_order0 sinm_order1)
    as (Hlin & Hfull & Htr).
  - intros M n [<- _]. apply (shape_eye (length M) 0).
  - intros M n HM. exact HM.
  - intros M n _ _. apply Hermitian_eye_0.
  - intros M n _ HM. exact HM.
  - split; [| split].
    + apply (Hlin (fluxonium_sample Fluxonium.full) 1 4);
        reflexivity || lra.
    + apply (Hfull (fluxonium_sample Fluxonium.full) 1 4 8 0.5);
        reflexivity || lra.
    + apply (Htr transmon_valid 1 10 0.25); try reflexivity. simpl. lia.
Defined.

(** * Further properties of the two device classes *)

(** ** Which exception a method raises *)

Lemma getitem_None (d : gmap string R) (key : string) :
  d !! key = None -> getitem d key = Raise (KeyError key).
Proof. intros Hk. unfold getitem. rewrite Hk. reflexivity. Qed.

Ltac case_key d k H :=
  destruct (d !! k) eqn:H;
  [ rewrite (getitem_Some _ _ _ H) in * | rewrite (getitem_None _ _ H) in * ].

(** X1: [Fluxonium.get_H_linear] reads ["Ec"] then ["El"] and
    [Fluxonium.get_H_full] reads ["Ec"], ["El"], ["phi_ext"], ["Ej"].  A
    missing ["Ec"], or a missing ["El"] when ["Ec"] is there, raises its
    [KeyError] from both methods, whatever the other values.  With ["Ec"] and
    ["El"] present and positive, so that the divisions of [phi_zpf] and
    [n_zpf] (which Python refuses with [ZeroDivisionError] on [0.0]) go
    through, [get_H_linear] returns a matrix, and [get_H_full] raises the
    [KeyError] of the first of ["phi_ext"], ["Ej"] that is missing and returns
    a matrix when none is. *)
Theorem fluxonium_hamiltonian_KeyError (cosm sinm : matrix C -> matrix C)
    (self : Fluxonium.t) :
  (Fluxonium.params self !! "Ec" = None ->
   Fluxonium.get_H_linear cosm sinm self = Raise (KeyError "Ec")
   /\ Fluxonium.get_H_full cosm sinm self = Raise (KeyError "Ec"))
  /\ (forall Ec : R,
        Fluxonium.params self !! "Ec" = Some Ec ->
        Fluxonium.params self !! "El" = None ->
        Fluxonium.get_H_linear cosm sinm self = Raise (KeyError "El")
        /\ Fluxonium.get_H_full cosm sinm self = Raise (KeyError "El"))
  /\ (forall Ec El : R,
        Fluxonium.params self !! "Ec" = Some Ec ->
        Fluxonium.params self !! "El" = Some El ->
        0 < Ec -> 0 < El ->
        (exists H, Fluxonium.get_H_linear cosm sinm self = Ok H)
        /\ match first_missing (Fluxonium.params self) ["phi_ext"; "Ej"] with
           | Some k => Fluxonium.get_H_full cosm sinm self = Raise (KeyError k)
           | None => exists H, Fluxonium.get_H_full cosm sinm self = Ok H
           end).
Proof.
  unfold first_missing, Fluxonium.get_H_full, Fluxonium.get_H_linear,
    Fluxonium.linear_ops, Fluxonium.common_ops, Fluxonium.get_linear_ω,
    Fluxonium.phi_zpf, Fluxonium.n_zpf.
  split; [| split].
  - intros HEc. rewrite (getitem_None _ _ HEc). split; reflexivity.
  - intros Ec HEc HEl.
    rewrite (getitem_Some _ _ _ HEc), (getitem_None _ _ HEl).
    split; reflexivity.
  - intros Ec El HEc HEl _ _.
    rewrite (getitem_Some _ _ _ HEc), (getitem_Some _ _ _ HEl).
    split; [eexists; reflexivity|].
    case_key (Fluxonium.params self) "phi_ext" Hext; [| reflexivity].
    case_key (Fluxonium.params self) "Ej" HEj; [| reflexivity].
    eexists. reflexivity.
Qed.

Lemma fluxonium_hamiltonian_KeyError_witness :
  (Fluxonium.get_H_linear cosm_order0 sinm_order1 fluxonium_without_Ec
     = Raise (KeyError "Ec")
   /\ Fluxonium.get_H_full cosm_order0 sinm_order1 fluxonium_without_Ec
     = Raise (KeyError "Ec"))
  /\ (Fluxonium.get_H_linear cosm_order0 sinm_order1 fluxonium_without_El
        = Raise (KeyError "El")
      /\ Fluxonium.get_H_full cosm_order0 sinm_order1 fluxonium_without_El
        = Raise (KeyError "El"))
  /\ ((exists H, Fluxonium.get_H_linear cosm_order0 sinm_order1
                   fluxonium_linear_only = Ok H)
      /\ Fluxonium.get_H_full cosm_order0 sinm_order1 fluxonium_linear_only
         = Raise (KeyError "phi_ext"))
  /\ (exists H, Fluxonium.get_H_full cosm_order0 sinm_order1
                  (fluxonium_sample Fluxonium.full) = Ok H).
Proof.
  split; [| split; [| split]].
  - destruct (fluxonium_hamiltonian_KeyError cosm_order0 sinm_order1
                fluxonium_without_Ec) as (H & _ & _).
    apply H. reflexivity.
  - destruct (fluxonium_hamiltonian_KeyError cosm_order0 sinm_order1
                fluxonium_without_El) as (_ & H & _).
    apply (H 1); reflexivity.
  - destruct (fluxonium_hamiltonian_KeyError cosm_order0 sinm_order1
                fluxonium_linear_only) as (_ & _ & H).
    apply (H 1 4); reflexivity || lra.
  - destruct (fluxonium_hamiltonian_KeyError cosm_order0 sinm_order1
                (fluxonium_sample Fluxonium.full)) as (_ & _ & H).
    destruct (H 1 4) as [_ Hfull]; [reflexivity | reflexivity | lra | lra |].
    exact Hfull.
Defined.

(** X2: [Fluxonium.potential] reads ["phi_ext"] and ["El"] under every
    selector, although the [linear] branch does not use [phi_ext], and reads
    ["Ej"] under every selector but [linear]: it raises the [KeyError] of the
    first missing key, also for a selector whose result would be [None]. *)
Theorem fluxonium_potential_KeyError (self : Fluxonium.t) (phi : R) :
  let keys :=
    match Fluxonium.hamiltonian self with
    | Fluxonium.linear => ["phi_ext"; "El"]
    | _ => ["phi_ext"; "El"; "Ej"]
    end in
  match first_missing (Fluxonium.params self) keys with
  | Some k => Fluxonium.potential self phi = Raise (KeyError k)
  | None => exists v, Fluxonium.potential self phi = Ok v
  end.
Proof.
  unfold Fluxonium.potential.
  destruct (Fluxonium.hamiltonian self); cbv zeta; unfold first_missing;
    (case_key (Fluxonium.params self) "phi_ext" Hext; [| reflexivity]);
    (case_key (Fluxonium.params self) "El" HEl; [| reflexivity]);
    try (eexists; reflexivity);
    (case_key (Fluxonium.params self) "Ej" HEj; [| reflexivity]);
    eexists; reflexivity.
Qed.

(** X3: [SingleChargeTransmon.get_H_full] reads ["ng"], ["Ec"], ["Ej"] before
    it touches [linear_ops]: a missing key raises its [KeyError] even when the
    truncation is invalid, and the [AssertionError] of an invalid truncation
    shows only when the three keys are present. *)
Theorem transmon_get_H_full_errors (self : SingleChargeTransmon.t) :
  match first_missing (SingleChargeTransmon.params self) ["ng"; "Ec"; "Ej"] with
  | Some k => SingleChargeTransmon.get_H_full self = Raise (KeyError k)
  | None =>
      if (SingleChargeTransmon.N self
            <=? 2 * SingleChargeTransmon.N_max_charge self + 1)%nat
      then exists H, SingleChargeTransmon.get_H_full self = Ok H
      else SingleChargeTransmon.get_H_full self = Raise AssertionError
  end.
Proof.
  unfold first_missing, SingleChargeTransmon.get_H_full,
    SingleChargeTransmon.linear_ops, SingleChargeTransmon.common_ops.
  case_key (SingleChargeTransmon.params self) "ng" Hng; [| reflexivity].
  case_key (SingleChargeTransmon.params self) "Ec" HEc; [| reflexivity].
  case_key (SingleChargeTransmon.params self) "Ej" HEj; [| reflexivity].
  destruct (SingleChargeTransmon.N self
              <=? 2 * SingleChargeTransmon.N_max_charge self + 1)%nat.
  - eexists. reflexivity.
  - reflexivity.
Qed.

(** ** Zero-point fluctuations and the linear frequency *)

Lemma float_pow_quarter_sq (x : R) : 0 < x -> float_pow x 0.25 ^ 2 = sqrt x.
Proof.
  intros Hx. symmetry. apply sqrt_lem_1.
  - lra.
  - apply pow_le. left. apply float_pow_quarter_pos.
  - rewrite <- (float_pow_quarter_pow4 x Hx) at 3. ring.
Qed.

(** The three scalars computed from a pair of positive energies [Ec] and
    [E] (the inductive energy of the fluxonium, the Josephson energy of the
    transmon). *)
Lemma zpf_relations (Ec E : R) :
  0 < Ec -> 0 < E ->
  let nz := float_pow (E / (32 * Ec)) 0.25 in
  let pz := float_pow (2 * Ec / E) 0.25 in
  let w := sqrt (8 * Ec * E) in
  nz * pz = 1 / 2 /\ w = 16 * Ec * nz ^ 2 /\ w = 2 * E * pz ^ 2 /\ 0 < w.
Proof.
  intros HEc HE nz pz w.
  assert (H1 : 0 < E / (32 * Ec)) by (apply Rdiv_lt_0_compat; lra).
  assert (H2 : 0 < 2 * Ec / E) by (apply Rdiv_lt_0_compat; lra).
  assert (Hw : 0 < w) by (apply sqrt_lt_R0; nra).
  split; [| split; [| split]]; [| | | exact Hw].
  - unfold nz, pz, float_pow. rewrite Rpower_mult_distr by assumption.
    apply (float_pow_quarter_unique _ (1 / 2)).
    + apply Rmult_lt_0_compat; assumption.
    + lra.
    + field. split; lra.
  - unfold nz. rewrite float_pow_quarter_sq by assumption.
    unfold w. apply sqrt_lem_1.
    + nra.
    + apply Rmult_le_pos; [lra | apply sqrt_pos].
    + replace (16 * Ec * sqrt (E / (32 * Ec)) * (16 * Ec * sqrt (E / (32 * Ec))))
        with (256 * Ec * Ec * (sqrt (E / (32 * Ec)) * sqrt (E / (32 * Ec))))
        by ring.
      rewrite sqrt_sqrt by lra. field. lra.
  - unfold pz. rewrite float_pow_quarter_sq by assumption.
    unfold w. apply sqrt_lem_1.
    + nra.
    + apply Rmult_le_pos; [lra | apply sqrt_pos].
    + replace (2 * E * sqrt (2 * Ec / E) * (2 * E * sqrt (2 * Ec / E)))
        with (4 * E * E * (sqrt (2 * Ec / E) * sqrt (2 * Ec / E))) by ring.
      rewrite sqrt_sqrt by lra. field. lra.
Qed.

(** X4: for a fluxonium with positive [Ec] and [El], the linear frequency is
    tied to the zero-point fluctuations by
    [omega = 16*Ec*n_zpf^2 = 2*El*phi_zpf^2], and it is positive. *)
Theorem fluxonium_omega_zpf (self : Fluxonium.t) (Ec El : R) :
  Fluxonium.params self !! "Ec" = Some Ec ->
  Fluxonium.params self !! "El" = Some El ->
  0 < Ec -> 0 < El ->
  exists w nz pz,
    Fluxonium.get_linear_ω self = Ok w
    /\ Fluxonium.n_zpf self = Ok nz
    /\ Fluxonium.phi_zpf self = Ok pz
    /\ w = 16 * Ec * nz ^ 2 /\ w = 2 * El * pz ^ 2 /\ 0 < w.
Proof.
  intros HEc HEl Hc Hl.
  unfold Fluxonium.get_linear_ω, Fluxonium.n_zpf, Fluxonium.phi_zpf.
  rewrite (getitem_Some _ _ _ HEc), (getitem_Some _ _ _ HEl).
  do 3 eexists. do 3 (split; [reflexivity|]).
  destruct (zpf_relations Ec El Hc Hl) as (_ & H1 & H2 & H3).
  repeat split; assumption.
Qed.

Lemma fluxonium_omega_zpf_witness :
  exists w nz pz,
    Fluxonium.get_linear_ω (fluxonium_sample Fluxonium.full) = Ok w
    /\ Fluxonium.n_zpf (fluxonium_sample Fluxonium.full) = Ok nz
    /\ Fluxonium.phi_zpf (fluxonium_sample Fluxonium.full) = Ok pz
    /\ w = 16 * 1 * nz ^ 2 /\ w = 2 * 4 * pz ^ 2 /\ 0 < w.
Proof.
  apply (fluxonium_omega_zpf (fluxonium_sample Fluxonium.full) 1 4);
    reflexivity || lra.
Defined.

(** X5: for a transmon with positive [Ec] and [Ej], the properties [n_zpf]
    and [phi_zpf] are the positive fourth roots of [Ej/(32*Ec)] and [2*Ec/Ej],
    their product is one half, and
    [get_linear_ω() = 16*Ec*n_zpf^2 = 2*Ej*phi_zpf^2]. *)
Theorem transmon_zpf (self : SingleChargeTransmon.t) (Ec Ej : R) :
  SingleChargeTransmon.params self !! "Ec" = Some Ec ->
  SingleChargeTransmon.params self !! "Ej" = Some Ej ->
  0 < Ec -> 0 < Ej ->
  exists w nz pz,
    SingleChargeTransmon.get_linear_ω self = Ok w
    /\ SingleChargeTransmon.n_zpf self = Ok nz
    /\ SingleChargeTransmon.phi_zpf self = Ok pz
    /\ (0 < nz /\ nz ^ 4 = Ej / (32 * Ec))
    /\ (0 < pz /\ pz ^ 4 = 2 * Ec / Ej)
    /\ nz * pz = 1 / 2
    /\ w = 16 * Ec * nz ^ 2 /\ w = 2 * Ej * pz ^ 2.
Proof.
  intros HEc HEj Hc Hj.
  unfold SingleChargeTransmon.get_linear_ω, SingleChargeTransmon.n_zpf,
    SingleChargeTransmon.phi_zpf.
  rewrite (getitem_Some _ _ _ HEc), (getitem_Some _ _ _ HEj).
  do 3 eexists. do 3 (split; [reflexivity|]).
  assert (H1 : 0 < Ej / (32 * Ec)) by (apply Rdiv_lt_0_compat; lra).
  assert (H2 : 0 < 2 * Ec / Ej) by (apply Rdiv_lt_0_compat; lra).
  destruct (zpf_relations Ec Ej Hc Hj) as (H3 & H4 & H5 & _).
  split; [split; [apply float_pow_quarter_pos
                 | apply float_pow_quarter_pow4, H1]|].
  split; [split; [apply float_pow_quarter_pos
                 | apply float_pow_quarter_pow4, H2]|].
  repeat split; assumption.
Qed.

Lemma transmon_zpf_witness :
  exists w nz pz,
    SingleChargeTransmon.get_linear_ω transmon_single = Ok w
    /\ SingleChargeTransmon.n_zpf transmon_single = Ok nz
    /\ SingleChargeTransmon.phi_zpf transmon_single = Ok pz
    /\ nz * pz = 1 / 2.
Proof.
  destruct (transmon_zpf transmon_single 1 10)
    as (w & nz & pz & Hw & Hn & Hp & _ & _ & Hprod & _);
    try reflexivity; try lra.
  exists w, nz, pz. repeat split; assumption.
Defined.

(** ** The classical potential of the fluxonium *)

Lemma cos_sin_shift_nat (x : R) (n : nat) :
  cos (x + 2 * PI * INR n) = cos x /\ sin (x + 2 * PI * INR n) = sin x.
Proof.
  replace (x + 2 * PI * INR n) with (x + 2 * INR n * PI) by ring.
  split; [apply cos_period | apply sin_period].
Qed.

(** Cosine and sine do not change when the angle moves by a whole number of
    turns. *)
Lemma cos_sin_shift (x : R) (k : Z) :
  cos (x + 2 * PI * IZR k) = cos x /\ sin (x + 2 * PI * IZR k) = sin x.
Proof.
  destruct (Z.le_gt_cases 0 k) as [Hk | Hk].
  - rewrite <- (Z2Nat.id k Hk), <- INR_IZR_INZ. apply cos_sin_shift_nat.
  - destruct (cos_sin_shift_nat (x + 2 * PI * IZR k) (Z.to_nat (- k)))
      as [Hc Hs].
    rewrite INR_IZR_INZ, Z2Nat.id, opp_IZR in Hc, Hs by lia.
    replace (x + 2 * PI * IZR k + 2 * PI * - IZR k) with x in Hc, Hs by ring.
    split; symmetry; assumption.
Qed.

(** X6: in exact arithmetic the potential depends on the external flux only
    modulo one flux quantum: two fluxoniums that agree on the selector, on
    [El] and on [Ej] and whose [phi_ext] differ by an integer have the same
    [potential].  This is an identity of the real cosine; float64 rounds
    [phi - phi_ext] and the cosine, so that there the two values agree only up
    to rounding. *)
Theorem fluxonium_potential_phi_ext_period (self1 self2 : Fluxonium.t)
    (phi_ext : R) (k : Z) (phi : R) :
  Fluxonium.hamiltonian self1 = Fluxonium.hamiltonian self2 ->
  Fluxonium.params self1 !! "El" = Fluxonium.params self2 !! "El" ->
  Fluxonium.params self1 !! "Ej" = Fluxonium.params self2 !! "Ej" ->
  Fluxonium.params self1 !! "phi_ext" = Some phi_ext ->
  Fluxonium.params self2 !! "phi_ext" = Some (phi_ext + IZR k) ->
  Fluxonium.potential self1 phi = Fluxonium.potential self2 phi.
Proof.
  intros Hh HEl HEj H1 H2. unfold Fluxonium.potential, getitem.
  rewrite Hh, HEl, HEj, H1, H2.
  destruct (Fluxonium.params self2 !! "El") as [El|]; [| reflexivity].
  destruct (Fluxonium.hamiltonian self2); [reflexivity | |];
    (destruct (Fluxonium.params self2 !! "Ej") as [Ej|]; [| reflexivity]);
    [| reflexivity].
  simpl. do 4 f_equal.
  destruct (cos_sin_shift (2 * PI * (phi - (phi_ext + IZR k))) k) as [Hc _].
  rewrite <- Hc. f_equal. ring.
Qed.

Lemma fluxonium_potential_phi_ext_period_witness :
  Fluxonium.potential (fluxonium_sample Fluxonium.full) 0.3
  = Fluxonium.potential (fluxonium_shifted Fluxonium.full) 0.3.
Proof.
  apply (fluxonium_potential_phi_ext_period _ _ 0.5 1); reflexivity.
Defined.

(** X7: in exact arithmetic the nonlinear term moves the potential by at
    most [|Ej|]: under the [full] selector [potential(phi)] lies within [|Ej|]
    of [0.5*El*(2*pi*phi)^2], the value under [linear]; and that value is not
    negative when [El] is not.  The bound is one of real numbers; float64
    rounds the sum of the two terms, so that there the distance can exceed
    [|Ej|] by the rounding error of that sum. *)
Theorem fluxonium_potential_bounds (self : Fluxonium.t) (El Ej phi_ext phi : R) :
  Fluxonium.params self !! "El" = Some El ->
  Fluxonium.params self !! "Ej" = Some Ej ->
  Fluxonium.params self !! "phi_ext" = Some phi_ext ->
  (Fluxonium.hamiltonian self = Fluxonium.full ->
     exists v, Fluxonium.potential self phi = Ok (Some v)
       /\ Rabs (v - 0.5 * El * (2 * PI * phi) ^ 2) <= Rabs Ej)
  /\ (Fluxonium.hamiltonian self = Fluxonium.linear -> 0 <= El ->
        exists v, Fluxonium.potential self phi = Ok (Some v) /\ 0 <= v).
Proof.
  intros HEl HEj Hext. unfold Fluxonium.potential.
  rewrite (getitem_Some _ _ _ HEl), (getitem_Some _ _ _ HEj),
    (getitem_Some _ _ _ Hext).
  split.
  - intros ->. eexists. split; [reflexivity|].
    match goal with |- Rabs ?e <= _ =>
      replace e with (- Ej * cos (2 * PI * (phi - phi_ext))) by ring end.
    rewrite Rabs_mult, Rabs_Ropp.
    pose proof (COS_bound (2 * PI * (phi - phi_ext))) as [Hlo Hhi].
    assert (Hc : Rabs (cos (2 * PI * (phi - phi_ext))) <= 1)
      by (apply Rabs_le; split; assumption).
    pose proof (Rabs_pos Ej). nra.
  - intros -> Hpos. eexists. split; [reflexivity|].
    pose proof (pow2_ge_0 (2 * PI * phi)). nra.
Qed.

Lemma fluxonium_potential_bounds_witness :
  (exists v, Fluxonium.potential (fluxonium_sample Fluxonium.full) 0.3
             = Ok (Some v)
     /\ Rabs (v - 0.5 * 4 * (2 * PI * 0.3) ^ 2) <= Rabs 8)
  /\ exists v, Fluxonium.potential (fluxonium_sample Fluxonium.linear) 0.3
               = Ok (Some v) /\ 0 <= v.
Proof.
  split.
  - apply (fluxonium_potential_bounds (fluxonium_sample Fluxonium.full)
             4 8 0.5 0.3); reflexivity.
  - apply (fluxonium_potential_bounds (fluxonium_sample Fluxonium.linear)
             4 8 0.5 0.3); reflexivity || lra.
Defined.

(** X8: without external flux ([phi_ext = 0]) the potential is an even
    function of [phi], under every selector. *)
Theorem fluxonium_potential_even (self : Fluxonium.t) (phi : R) :
  Fluxonium.params self !! "phi_ext" = Some 0 ->
  Fluxonium.potential self (- phi) = Fluxonium.potential self phi.
Proof.
  intros Hext. unfold Fluxonium.potential.
  rewrite (getitem_Some _ _ _ Hext). unfold getitem.
  destruct (Fluxonium.params self !! "El") as [El|]; [| reflexivity].
  destruct (Fluxonium.hamiltonian self); simpl.
  - do 2 f_equal. ring.
  - destruct (Fluxonium.params self !! "Ej") as [Ej|]; [| reflexivity].
    simpl. do 2 f_equal.
    replace (2 * PI * (- phi - 0)) with (- (2 * PI * (phi - 0))) by ring.
    rewrite cos_neg. ring.
  - destruct (Fluxonium.params self !! "Ej") as [Ej|]; reflexivity.
Qed.

Lemma fluxonium_potential_even_witness :
  Fluxonium.potential (fluxonium_unbiased Fluxonium.full) (Ropp 0.3)
  = Fluxonium.potential (fluxonium_unbiased Fluxonium.full) 0.3.
Proof.
  apply (fluxonium_potential_even (fluxonium_unbiased Fluxonium.full) 0.3).
  reflexivity.
Defined.

(** ** The operators of [common_ops] *)

Lemma mdiv_real_tabulate (x : R) (n m : nat) (f : nat -> nat -> C) :
  mdiv_real (tabulate n m f) x = tabulate n m (fun i j => Cdiv_real (f i j) x).
Proof.
  unfold mdiv_real, tabulate. rewrite List.map_map.
  apply map_ext. intros i. apply List.map_map.
Qed.

Lemma to_complex_tabulate (n m : nat) (f : nat -> nat -> R) :
  to_complex (tabulate n m f) = tabulate n m (fun i j => RtoC (f i j)).
Proof.
  unfold to_complex, tabulate. rewrite List.map_map.
  apply map_ext. intros i. apply List.map_map.
Qed.

Lemma shape_mdiv_real (M : matrix C) (x : R) (n m : nat) :
  shape M n m -> shape (mdiv_real M x) n m.
Proof.
  intros HM. rewrite (tabulate_entry M n m HM), mdiv_real_tabulate.
  apply shape_tabulate.
Qed.

Lemma Hermitian_mdiv_real (M : matrix C) (x : R) (n : nat) :
  shape M n n -> Hermitian M -> Hermitian (mdiv_real M x).
Proof.
  intros HM Hh. pose proof (Hermitian_entry M n) as EM.
  rewrite (tabulate_entry M n n HM), mdiv_real_tabulate.
  apply Hermitian_tabulate. intros i j Hi Hj.
  rewrite <- (EM i j HM Hh Hi Hj).
  unfold conj; simpl. unfold Cconj, Cdiv_real.
  apply C_eq; simpl; [reflexivity | unfold Rdiv; ring].
Qed.

(** The charge operator [1j * n_zpf * (a_dag - a)] of the fluxonium. *)
Lemma Hermitian_fluxonium_n (n : nat) (z : R) :
  let op := mscale (mul Ci (RtoC z)) (msub (create n) (destroy n)) in
  shape op n n /\ Hermitian op.
Proof.
  intros op. unfold op, create, destroy.
  rewrite msub_tabulate, mscale_tabulate.
  split; [apply shape_tabulate|].
  apply Hermitian_tabulate. intros i j _ _.
  destruct (Nat.eqb_spec i (j + 1)), (Nat.eqb_spec j (i + 1)); try lia;
    unfold conj, mul, sub, zero; simpl; unfold Cconj, Cmul, Csub, Ci, RtoC;
    apply C_eq; simpl; ring.
Qed.

Section OperatorFacts.
Variables cosm sinm : matrix C -> matrix C.
Hypothesis cosm_shape : forall M n, shape M n n -> shape (cosm M) n n.
Hypothesis sinm_shape : forall M n, shape M n n -> shape (sinm M) n n.
Hypothesis cosm_Hermitian :
  forall M n, shape M n n -> Hermitian M -> Hermitian (cosm M).
Hypothesis sinm_Hermitian :
  forall M n, shape M n n -> Hermitian M -> Hermitian (sinm M).

(** X9: with positive [Ec] and [El], the seven operators of
    [Fluxonium.common_ops] are square of dimension [N_pre_diag]; [a_dag] is
    the conjugate transpose of [a]; and [id], [phi], [n], [cos(phi/2)] and
    [sin(phi/2)] are Hermitian. *)
Theorem fluxonium_common_ops_operators (self : Fluxonium.t) (Ec El : R) :
  let N := Fluxonium.N_pre_diag self in
  Fluxonium.params self !! "Ec" = Some Ec ->
  Fluxonium.params self !! "El" = Some El ->
  0 < Ec -> 0 < El ->
  exists o,
    Fluxonium.common_ops cosm sinm self = Ok o
    /\ (shape (Fluxonium.id o) N N /\ shape (Fluxonium.a o) N N
        /\ shape (Fluxonium.a_dag o) N N /\ shape (Fluxonium.phi o) N N
        /\ shape (Fluxonium.n o) N N /\ shape (Fluxonium.cos_phi_2 o) N N
        /\ shape (Fluxonium.sin_phi_2 o) N N)
    /\ conjugate (transpose (Fluxonium.a o)) = Fluxonium.a_dag o
    /\ (Hermitian (Fluxonium.id o) /\ Hermitian (Fluxonium.phi o)
        /\ Hermitian (Fluxonium.n o) /\ Hermitian (Fluxonium.cos_phi_2 o)
        /\ Hermitian (Fluxonium.sin_phi_2 o)).
Proof.
  intros N HEc HEl _ _. eexists.
  split; [apply (fluxonium_common_ops_Ok cosm sinm self Ec El HEc HEl)|].
  cbn [Fluxonium.id Fluxonium.a Fluxonium.a_dag Fluxonium.phi Fluxonium.n
       Fluxonium.cos_phi_2 Fluxonium.sin_phi_2].
  fold N.
  destruct (Hermitian_fluxonium_phi N (float_pow (2 * Ec / El) 0.25))
    as [Hps Hph].
  destruct (Hermitian_fluxonium_n N (float_pow (El / (32 * Ec)) 0.25))
    as [Hns Hnh].
  cbv zeta in Hps, Hph, Hns, Hnh.
  set (phi := mscale _ (madd (destroy N) (create N))) in *.
  pose proof (shape_mdiv_real phi 2 N N Hps) as Hhs.
  pose proof (Hermitian_mdiv_real phi 2 N Hps Hph) as Hhh.
  split; [| split; [apply adjoint_destroy|]].
  - repeat split;
      solve [ apply (shape_eye N 0) | apply shape_destroy | apply shape_create
            | apply (proj1 Hps) | apply (proj2 Hps)
            | apply (proj1 Hns) | apply (proj2 Hns)
            | apply (proj1 (cosm_shape _ N Hhs))
            | apply (proj2 (cosm_shape _ N Hhs))
            | apply (proj1 (sinm_shape _ N Hhs))
            | apply (proj2 (sinm_shape _ N Hhs)) ].
  - split; [apply (Hermitian_eye_0 N)|].
    split; [exact Hph|]. split; [exact Hnh|].
    split; [apply (cosm_Hermitian _ N) | apply (sinm_Hermitian _ N)];
      assumption.
Qed.
End OperatorFacts.

Lemma fluxonium_common_ops_operators_witness :
  exists o,
    Fluxonium.common_ops cosm_order0 sinm_order1
      (fluxonium_sample Fluxonium.full) = Ok o
    /\ shape (Fluxonium.n o) 3 3 /\ Hermitian (Fluxonium.n o)
    /\ Hermitian (Fluxonium.phi o).
Proof.
  destruct (fluxonium_common_ops_operators cosm_order0 sinm_order1)
    with (self := fluxonium_sample Fluxonium.full) (Ec := 1) (El := 4)
    as (o & Ho & Hs & _ & Hh); try reflexivity; try lra.
  - intros M n [<- _]. apply (shape_eye (length M) 0).
  - intros M n HM. exact HM.
  - intros M n _ _. apply Hermitian_eye_0.
  - intros M n _ HM. exact HM.
  - exists o. split; [exact Ho|].
    split; [apply Hs|]. split; apply Hh.
Defined.

Lemma build_cos_phi_2_op_tabulate (self : SingleChargeTransmon.t) :
  let D := (2 * SingleChargeTransmon.N_max_charge self + 1)%nat in
  SingleChargeTransmon.build_cos_phi_2_op self
  = tabulate D D (fun i j =>
      if ((j =? i + 1) || (i =? j + 1))%nat then 0.5 else 0).
Proof.
  intros D. unfold SingleChargeTransmon.build_cos_phi_2_op, eye. fold D.
  rewrite madd_tabulate, mscale_tabulate.
  apply tabulate_ext. intros i j _ _. simpl.
  destruct (Z.eqb_spec (Z.of_nat j) (Z.of_nat i + 1)),
           (Z.eqb_spec (Z.of_nat j) (Z.of_nat i + -1)),
           (Nat.eqb_spec j (i + 1)), (Nat.eqb_spec i (j + 1));
    simpl; try lia; lra.
Qed.

Lemma build_sin_phi_2_op_tabulate (self : SingleChargeTransmon.t) :
  let D := (2 * SingleChargeTransmon.N_max_charge self + 1)%nat in
  SingleChargeTransmon.build_sin_phi_2_op self
  = tabulate D D (fun i j =>
      if (j =? i + 1)%nat then (0, 0.5)
      else if (i =? j + 1)%nat then (0, - 0.5)
      else (0, 0)).
Proof.
  intros D. unfold SingleChargeTransmon.build_sin_phi_2_op, eye. fold D.
  rewrite msub_tabulate, to_complex_tabulate, mscale_tabulate.
  apply tabulate_ext. intros i j _ _.
  destruct (Z.eqb_spec (Z.of_nat j) (Z.of_nat i + 1)),
           (Z.eqb_spec (Z.of_nat j) (Z.of_nat i + -1)),
           (Nat.eqb_spec j (i + 1)), (Nat.eqb_spec i (j + 1));
    try lia; unfold mul, sub, one, zero; simpl; unfold Cmul, RtoC;
    apply C_eq; simpl; lra.
Qed.

Lemma build_n_op_tabulate (self : SingleChargeTransmon.t) :
  let m := SingleChargeTransmon.N_max_charge self in
  SingleChargeTransmon.build_n_op self
  = tabulate (2 * m + 1) (2 * m + 1) (fun i j =>
      if (i =? j)%nat then (Z.of_nat i - Z.of_nat m)%Z else 0%Z).
Proof.
  intros m. unfold SingleChargeTransmon.build_n_op, diag. fold m.
  rewrite length_charge_range. apply tabulate_ext. intros i j Hi Hj.
  destruct (Nat.eqb_spec i j) as [-> | _]; [| reflexivity].
  rewrite nth_arange by lia. simpl. lia.
Qed.

(** X10: with a valid truncation, the four operators of
    [SingleChargeTransmon.common_ops] are square of dimension
    [2*N_max_charge+1] and Hermitian; [cos(phi/2)] has [1/2] exactly where the
    two indices differ by one, and [sin(phi/2)] has [i/2] on the first upper
    diagonal and [-i/2] on the first lower diagonal. *)
Theorem transmon_common_ops_operators (self : SingleChargeTransmon.t) :
  let D := (2 * SingleChargeTransmon.N_max_charge self + 1)%nat in
  (SingleChargeTransmon.N self <= D)%nat ->
  exists o,
    SingleChargeTransmon.common_ops self = Ok o
    /\ (shape (SingleChargeTransmon.n o) D D
        /\ shape (SingleChargeTransmon.cos_phi o) D D
        /\ shape (SingleChargeTransmon.cos_phi_2 o) D D
        /\ shape (SingleChargeTransmon.sin_phi_2 o) D D)
    /\ (Hermitian (SingleChargeTransmon.n o)
        /\ Hermitian (SingleChargeTransmon.cos_phi o)
        /\ Hermitian (SingleChargeTransmon.cos_phi_2 o)
        /\ Hermitian (SingleChargeTransmon.sin_phi_2 o))
    /\ (forall i j, (i < D)%nat -> (j < D)%nat ->
          entry (SingleChargeTransmon.cos_phi_2 o) i j
          = (if ((j =? i + 1) || (i =? j + 1))%nat then 0.5 else 0)
          /\ entry (SingleChargeTransmon.sin_phi_2 o) i j
             = (if (j =? i + 1)%nat then (0, 0.5)
                else if (i =? j + 1)%nat then (0, - 0.5)
                else (0, 0))).
Proof.
  intros D Hle. eexists.
  split; [apply (transmon_common_ops_Ok self Hle)|].
  cbn [SingleChargeTransmon.n SingleChargeTransmon.cos_phi
       SingleChargeTransmon.cos_phi_2 SingleChargeTransmon.sin_phi_2].
  pose proof (build_n_op_tabulate self) as Hn.
  pose proof (build_cos_phi_op_tabulate self) as Hc.
  pose proof (build_cos_phi_2_op_tabulate self) as Hc2.
  pose proof (build_sin_phi_2_op_tabulate self) as Hs2.
  cbv zeta in Hn, Hc, Hc2, Hs2. fold D in Hn, Hc, Hc2, Hs2.
  rewrite Hn, Hc, Hc2, Hs2.
  split; [repeat split; apply shape_tabulate|].
  split.
  - repeat split; apply Hermitian_tabulate; intros i j _ _.
    + rewrite (Nat.eqb_sym j i).
      destruct (Nat.eqb_spec i j) as [-> | _]; reflexivity.
    + rewrite orb_comm. reflexivity.
    + rewrite orb_comm. reflexivity.
    + destruct (Nat.eqb_spec i (j + 1)), (Nat.eqb_spec j (i + 1)); try lia;
        unfold conj; simpl; unfold Cconj; apply C_eq; simpl; lra.
  - intros i j Hi Hj. split; apply entry_tabulate; assumption.
Qed.

Lemma transmon_common_ops_operators_witness :
  exists o,
    SingleChargeTransmon.common_ops transmon_valid = Ok o
    /\ Hermitian (SingleChargeTransmon.sin_phi_2 o)
    /\ entry (SingleChargeTransmon.sin_phi_2 o) 0 1 = (0, 0.5)
    /\ entry (SingleChargeTransmon.sin_phi_2 o) 1 0 = (0, - 0.5).
Proof.
  destruct (transmon_common_ops_operators transmon_valid)
    as (o & Ho & _ & (_ & _ & _ & Hh) & He).
  - simpl. lia.
  - exists o. split; [exact Ho|]. split; [exact Hh|].
    split; [apply (He 0%nat 1%nat) | apply (He 1%nat 0%nat)]; simpl; lia.
Defined.

(** ** The full Hamiltonian of the fluxonium as a function of [Ej], [phi_ext] *)

Lemma msub_mscale_zero (M P : matrix C) (n m : nat) :
  shape M n m -> shape P n m -> msub M (mscale (RtoC 0) P) = M.
Proof.
  intros HM HP.
  rewrite (tabulate_entry M n m HM) at 2.
  rewrite (tabulate_entry M n m HM), (tabulate_entry P n m HP) at 1.
  rewrite mscale_tabulate, msub_tabulate.
  apply tabulate_ext. intros i j _ _.
  unfold sub, mul; simpl. unfold Csub, Cmul, RtoC. apply C_eq; simpl; ring.
Qed.

Section JosephsonTerm.
Variables cosm sinm : matrix C -> matrix C.
Hypothesis cosm_shape : forall M n, shape M n n -> shape (cosm M) n n.
Hypothesis sinm_shape : forall M n, shape M n n -> shape (sinm M) n n.

(** X11: with [Ej = 0] the full Hamiltonian of the fluxonium is its linear
    Hamiltonian, whatever the external flux. *)
Theorem fluxonium_get_H_full_no_junction (self : Fluxonium.t)
    (Ec El phi_ext : R) :
  Fluxonium.params self !! "Ec" = Some Ec ->
  Fluxonium.params self !! "El" = Some El ->
  Fluxonium.params self !! "Ej" = Some 0 ->
  Fluxonium.params self !! "phi_ext" = Some phi_ext ->
  0 < Ec -> 0 < El ->
  exists H,
    Fluxonium.get_H_full cosm sinm self = Ok H
    /\ Fluxonium.get_H_linear cosm sinm self = Ok H.
Proof.
  intros HEc HEl HEj Hext _ _.
  rewrite (fluxonium_get_H_full_Ok cosm sinm self Ec El 0 phi_ext HEc HEl HEj Hext).
  rewrite (fluxonium_get_H_linear_Ok cosm sinm self Ec El HEc HEl).
  cbv zeta. eexists. split; [| reflexivity]. f_equal.
  set (n := Fluxonium.N_pre_diag self).
  destruct (Hermitian_fluxonium_H_linear n (sqrt (8 * Ec * El))) as [Hls _].
  destruct (Hermitian_fluxonium_phi n (float_pow (2 * Ec / El) 0.25))
    as [Hps _].
  cbv zeta in Hls, Hps.
  apply (msub_mscale_zero _ _ n n Hls).
  apply shape_madd; apply shape_mscale;
    [apply cosm_shape | apply sinm_shape]; exact Hps.
Qed.
End JosephsonTerm.

Lemma fluxonium_get_H_full_no_junction_witness :
  exists H,
    Fluxonium.get_H_full cosm_order0 sinm_order1 fluxonium_no_junction = Ok H
    /\ Fluxonium.get_H_linear cosm_order0 sinm_order1 fluxonium_no_junction
       = Ok H.
Proof.
  apply (fluxonium_get_H_full_no_junction cosm_order0 sinm_order1)
    with (Ec := 1) (El := 4) (phi_ext := 0.5); try reflexivity; try lra.
  - intros M n [<- _]. apply (shape_eye (length M) 0).
  - intros M n HM. exact HM.
Defined.

(** X12: the full Hamiltonian depends on the external flux only modulo one
    flux quantum: two fluxoniums with the same [N_pre_diag], [Ec], [El] and
    [Ej] whose [phi_ext] differ by an integer have the same [get_H_full]. *)
Theorem fluxonium_get_H_full_phi_ext_period (cosm sinm : matrix C -> matrix C)
    (self1 self2 : Fluxonium.t) (phi_ext : R) (k : Z) :
  Fluxonium.N_pre_diag self1 = Fluxonium.N_pre_diag self2 ->
  Fluxonium.params self1 !! "Ec" = Fluxonium.params self2 !! "Ec" ->
  Fluxonium.params self1 !! "El" = Fluxonium.params self2 !! "El" ->
  Fluxonium.params self1 !! "Ej" = Fluxonium.params self2 !! "Ej" ->
  Fluxonium.params self1 !! "phi_ext" = Some phi_ext ->
  Fluxonium.params self2 !! "phi_ext" = Some (phi_ext + IZR k) ->
  Fluxonium.get_H_full cosm sinm self1 = Fluxonium.get_H_full cosm sinm self2.
Proof.
  intros HN HEc HEl HEj H1 H2.
  unfold Fluxonium.get_H_full, Fluxonium.get_H_linear, Fluxonium.linear_ops,
    Fluxonium.common_ops, Fluxonium.get_linear_ω, Fluxonium.phi_zpf,
    Fluxonium.n_zpf, getitem.
  rewrite HN, HEc, HEl, HEj, H1, H2.
  destruct (Fluxonium.params self2 !! "Ec") as [Ec|]; [| reflexivity].
  destruct (Fluxonium.params self2 !! "El") as [El|]; [| reflexivity].
  destruct (Fluxonium.params self2 !! "Ej") as [Ej|]; [| reflexivity].
  rewrite !bind_Ok. cbv zeta. cbn [Fluxonium.phi].
  destruct (cos_sin_shift (2 * PI * phi_ext) k) as [Hc Hs].
  replace (2 * PI * (phi_ext + IZR k)) with (2 * PI * phi_ext + 2 * PI * IZR k)
    by ring.
  rewrite Hc, Hs. reflexivity.
Qed.

Lemma fluxonium_get_H_full_phi_ext_period_witness :
  Fluxonium.get_H_full cosm_order0 sinm_order1 (fluxonium_sample Fluxonium.full)
  = Fluxonium.get_H_full cosm_order0 sinm_order1
      (fluxonium_shifted Fluxonium.full).
Proof.
  apply (fluxonium_get_H_full_phi_ext_period _ _ _ _ 0.5 1); reflexivity.
Defined.

(** ** The Hamiltonian of the transmon as a function of the device *)

Lemma transmon_H_full_tabulate (self : SingleChargeTransmon.t) (Ec Ej ng : R) :
  let m := SingleChargeTransmon.N_max_charge self in
  let D := (2 * m + 1)%nat in
  SingleChargeTransmon.params self !! "Ec" = Some Ec ->
  SingleChargeTransmon.params self !! "Ej" = Some Ej ->
  SingleChargeTransmon.params self !! "ng" = Some ng ->
  (SingleChargeTransmon.N self <= D)%nat ->
  SingleChargeTransmon.get_H_full self
  = Ok (tabulate D D (fun i j =>
          (if (i =? j)%nat
           then Ec * (IZR (Z.of_nat i - Z.of_nat m) - 2 * ng) ^ 2 else 0)
          - Ej * (if ((j =? i + 2) || (i =? j + 2))%nat then 0.5 else 0))).
Proof.
  intros m D HEc HEj Hng Hle.
  rewrite (transmon_get_H_full_Ok self Ec Ej ng HEc HEj Hng Hle).
  pose proof (build_cos_phi_op_tabulate self) as Hcos. cbv zeta in Hcos.
  fold m in Hcos. fold D in Hcos. fold m.
  rewrite Hcos. unfold diag.
  rewrite length_map, length_charge_range. fold D.
  rewrite mscale_tabulate, msub_tabulate. f_equal.
  apply tabulate_ext. intros i j Hi Hj.
  unfold sub, mul; simpl. f_equal.
  destruct (Nat.eqb_spec i j) as [-> | _]; [| reflexivity].
  rewrite (nth_indep _ 0 (Ec * (IZR 0 - 2 * ng) ^ 2))
    by (rewrite length_map, length_charge_range; assumption).
  rewrite (map_nth (fun n => Ec * (IZR n - 2 * ng) ^ 2)).
  rewrite nth_arange by (unfold D in Hj; lia).
  replace (- Z.of_nat m + Z.of_nat j)%Z with (Z.of_nat j - Z.of_nat m)%Z
    by lia.
  ring.
Qed.

(** X13: the Hamiltonian of the transmon is built from [N_max_charge] and the
    parameters only: two devices with valid truncations that agree on
    [N_max_charge] and on [params] return the same [get_H_full], whatever
    their [N], [label] and [use_linear]. *)
Theorem transmon_get_H_full_ignores_N (self1 self2 : SingleChargeTransmon.t) :
  SingleChargeTransmon.N_max_charge self1
    = SingleChargeTransmon.N_max_charge self2 ->
  SingleChargeTransmon.params self1 = SingleChargeTransmon.params self2 ->
  (SingleChargeTransmon.N self1
     <= 2 * SingleChargeTransmon.N_max_charge self1 + 1)%nat ->
  (SingleChargeTransmon.N self2
     <= 2 * SingleChargeTransmon.N_max_charge self2 + 1)%nat ->
  SingleChargeTransmon.get_H_full self1 = SingleChargeTransmon.get_H_full self2.
Proof.
  intros Hm Hp H1 H2.
  unfold SingleChargeTransmon.get_H_full, SingleChargeTransmon.linear_ops.
  rewrite (transmon_common_ops_Ok self1 H1), (transmon_common_ops_Ok self2 H2).
  unfold SingleChargeTransmon.build_cos_phi_op.
  rewrite Hm, Hp. reflexivity.
Qed.

Lemma transmon_get_H_full_ignores_N_witness :
  SingleChargeTransmon.get_H_full transmon_valid
  = SingleChargeTransmon.get_H_full transmon_valid_3.
Proof.
  apply transmon_get_H_full_ignores_N; try reflexivity; simpl; lia.
Defined.

(** X14: reversing the sign of the offset charge reverses the charge basis:
    for two valid devices with the same [N_max_charge], [Ec] and [Ej] and
    opposite [ng], the entry [(i, j)] of one Hamiltonian is the entry
    [(2*N_max_charge - i, 2*N_max_charge - j)] of the other. *)
Theorem transmon_get_H_full_charge_reversal
    (self1 self2 : SingleChargeTransmon.t) (Ec Ej ng : R) :
  let m := SingleChargeTransmon.N_max_charge self1 in
  SingleChargeTransmon.N_max_charge self2 = m ->
  SingleChargeTransmon.params self1 !! "Ec" = Some Ec ->
  SingleChargeTransmon.params self2 !! "Ec" = Some Ec ->
  SingleChargeTransmon.params self1 !! "Ej" = Some Ej ->
  SingleChargeTransmon.params self2 !! "Ej" = Some Ej ->
  SingleChargeTransmon.params self1 !! "ng" = Some ng ->
  SingleChargeTransmon.params self2 !! "ng" = Some (- ng) ->
  (SingleChargeTransmon.N self1 <= 2 * m + 1)%nat ->
  (SingleChargeTransmon.N self2 <= 2 * m + 1)%nat ->
  exists H1 H2,
    SingleChargeTransmon.get_H_full self1 = Ok H1
    /\ SingleChargeTransmon.get_H_full self2 = Ok H2
    /\ forall i j, (i < 2 * m + 1)%nat -> (j < 2 * m + 1)%nat ->
         entry H2 i j = entry H1 (2 * m - i) (2 * m - j).
Proof.
  intros m Hm HEc1 HEc2 HEj1 HEj2 Hng1 Hng2 Hle1 Hle2.
  pose proof (transmon_H_full_tabulate self1 Ec Ej ng HEc1 HEj1 Hng1 Hle1)
    as HH1.
  assert (Hle2' : (SingleChargeTransmon.N self2
                   <= 2 * SingleChargeTransmon.N_max_charge self2 + 1)%nat)
    by (rewrite Hm; exact Hle2).
  pose proof (transmon_H_full_tabulate self2 Ec Ej (- ng) HEc2 HEj2 Hng2 Hle2')
    as HH2.
  cbv zeta in HH1, HH2. rewrite Hm in HH2. fold m in HH1.
  eexists. eexists. split; [exact HH1|]. split; [exact HH2|].
  intros i j Hi Hj. rewrite !entry_tabulate by lia.
  f_equal.
  - destruct (Nat.eqb_spec i j) as [-> | Hne].
    + rewrite Nat.eqb_refl.
      rewrite !minus_IZR, <- !INR_IZR_INZ, minus_INR, mult_INR by lia.
      simpl. ring.
    + destruct (Nat.eqb_spec (2 * m - i) (2 * m - j)); [lia | reflexivity].
  - f_equal.
    destruct (Nat.eqb_spec j (i + 2)), (Nat.eqb_spec i (j + 2)),
             (Nat.eqb_spec (2 * m - j) (2 * m - i + 2)),
             (Nat.eqb_spec (2 * m - i) (2 * m - j + 2));
      simpl; try lia; reflexivity.
Qed.

Lemma transmon_get_H_full_charge_reversal_witness :
  exists H1 H2,
    SingleChargeTransmon.get_H_full transmon_valid = Ok H1
    /\ SingleChargeTransmon.get_H_full transmon_valid_opposite = Ok H2
    /\ entry H2 0 2 = entry H1 2 0 /\ entry H2 0 0 = entry H1 2 2.
Proof.
  destruct (transmon_get_H_full_charge_reversal transmon_valid
              transmon_valid_opposite 1 10 0.25)
    as (H1 & H2 & HH1 & HH2 & Hrev); try reflexivity; try (simpl; lia).
  exists H1, H2. split; [exact HH1|]. split; [exact HH2|].
  split; [apply (Hrev 0%nat 2%nat) | apply (Hrev 0%nat 0%nat)]; simpl; lia.
Defined.

(** ** The commutator of flux and charge in the truncated oscillator basis *)

Lemma sum_prod_comm {A : Type} `{ScalarLaws A} (k : nat) (f g : nat -> A) :
  sum_prod k f g = sum_prod k g f.
Proof. apply sum_prod_ext. intros l _. apply mul_comm. Qed.

(** [sum (p*(f + f')) * (q*(g - g'))] expanded into the four sums of
    products, over the complex numbers. *)
Lemma sum_prod_expand (k : nat) (p q : C) (f f' g g' : nat -> C) :
  sum_prod k (fun l => mul p (add (f l) (f' l)))
             (fun l => mul q (sub (g l) (g' l)))
  = mul (mul p q)
        (add (sub (sum_prod k f g) (sum_prod k f g'))
             (sub (sum_prod k f' g) (sum_prod k f' g'))).
Proof.
  unfold sum_prod. induction (seq 0 k) as [|x xs IH]; cbn [map fold_right].
  - unfold mul, add, sub, zero; simpl.
    unfold Cmul, Cadd, Csub, RtoC. apply C_eq; simpl; ring.
  - rewrite IH.
    generalize (fold_right add zero (map (fun l => mul (f l) (g l)) xs)).
    generalize (fold_right add zero (map (fun l => mul (f l) (g' l)) xs)).
    generalize (fold_right add zero (map (fun l => mul (f' l) (g l)) xs)).
    generalize (fold_right add zero (map (fun l => mul (f' l) (g' l)) xs)).
    intros s4 s3 s2 s1. unfold mul, add, sub; simpl.
    unfold Cmul, Cadd, Csub. apply C_eq; simpl; ring.
Qed.

(** The entries of [a @ a_dag]: [k+1] on the diagonal, except in the last
    level, where the truncation leaves [0]. *)
Lemma destroy_create_sum (n i j : nat) :
  (i < n)%nat -> (j < n)%nat ->
  sum_prod n (fun l => if (l =? i + 1)%nat then RtoC (sqrt (INR l)) else zero)
             (fun l => if (l =? j + 1)%nat then RtoC (sqrt (INR l)) else zero)
  = if (i =? j)%nat
    then (if (i + 1 <? n)%nat then RtoC (INR (i + 1)) else zero)
    else zero.
Proof.
  intros Hi Hj.
  destruct (Nat.ltb_spec (i + 1) n) as [Hlt | Hge].
  - rewrite (sum_prod_ext _ _ _
               (fun l => if (l =? i + 1)%nat then one else zero)
               (fun l => mul (RtoC (sqrt (INR (i + 1))))
                             (if (l =? j + 1)%nat then RtoC (sqrt (INR l))
                              else zero))).
    + rewrite sum_prod_unit by lia.
      destruct (Nat.eqb_spec (i + 1) (j + 1)), (Nat.eqb_spec i j); try lia.
      * rewrite Cmul_RtoC, sqrt_sqrt by apply pos_INR. reflexivity.
      * rewrite mul_comm. apply mul_zero_l.
    + intros l Hl. destruct (Nat.eqb_spec l (i + 1)) as [-> | _].
      * rewrite mul_one_l. reflexivity.
      * rewrite !mul_zero_l. reflexivity.
  - rewrite sum_prod_zero.
    + destruct (i =? j)%nat; reflexivity.
    + intros l Hl. destruct (Nat.eqb_spec l (i + 1)); [lia | reflexivity].
Qed.

(** The entries of [a_dag @ a]. *)
Lemma create_destroy_sum (n i j : nat) :
  (i < n)%nat -> (j < n)%nat ->
  sum_prod n (fun l => if (i =? l + 1)%nat then RtoC (sqrt (INR i)) else zero)
             (fun l => if (j =? l + 1)%nat then RtoC (sqrt (INR j)) else zero)
  = if (i =? j)%nat then RtoC (INR i) else zero.
Proof.
  intros Hi Hj.
  pose proof (number_operator n) as Hnum.
  destruct n as [|n]; [lia|].
  unfold create, destroy in Hnum. rewrite matmul_tabulate in Hnum by lia.
  apply (f_equal (fun M => entry M i j)) in Hnum.
  rewrite !entry_tabulate in Hnum by assumption. exact Hnum.
Qed.

(** X15: flux and charge of the fluxonium obey the canonical commutation
    relation up to the truncation: with positive [Ec] and [El],
    [phi @ n - n @ phi] is diagonal, with [i] in every level but the last and
    [-(N_pre_diag - 1) * i] in the last one. *)
Theorem fluxonium_commutator (cosm sinm : matrix C -> matrix C)
    (self : Fluxonium.t) (Ec El : R) :
  let N := Fluxonium.N_pre_diag self in
  Fluxonium.params self !! "Ec" = Some Ec ->
  Fluxonium.params self !! "El" = Some El ->
  0 < Ec -> 0 < El ->
  exists o,
    Fluxonium.common_ops cosm sinm self = Ok o
    /\ msub (matmul (Fluxonium.phi o) (Fluxonium.n o))
            (matmul (Fluxonium.n o) (Fluxonium.phi o))
       = tabulate N N (fun i j =>
           if (i =? j)%nat
           then (if (i + 1 <? N)%nat then Ci else (0, - INR (N - 1)))
           else zero).
Proof.
  intros N HEc HEl Hc Hl. eexists.
  split; [apply (fluxonium_common_ops_Ok cosm sinm self Ec El HEc HEl)|].
  cbn [Fluxonium.phi Fluxonium.n]. fold N.
  destruct (zpf_relations Ec El Hc Hl) as (Hprod & _).
  cbv zeta in Hprod.
  set (pz := float_pow (2 * Ec / El) 0.25) in *.
  set (nz := float_pow (El / (32 * Ec)) 0.25) in *.
  destruct N as [|N']; [reflexivity|]. set (N := S N').
  unfold destroy, create.
  rewrite madd_tabulate, msub_tabulate, !mscale_tabulate.
  rewrite !matmul_tabulate by (unfold N; lia).
  rewrite msub_tabulate. apply tabulate_ext. intros i j Hi Hj.
  rewrite sum_prod_expand.
  rewrite (sum_prod_comm N
             (fun l => mul (mul Ci (RtoC nz)) (sub _ _))
             (fun l => mul (RtoC pz) (add _ _))).
  rewrite (sum_prod_expand N (RtoC pz) (mul Ci (RtoC nz))
             (fun l => if (j =? l + 1)%nat then RtoC (sqrt (INR j)) else zero)
             (fun l => if (l =? j + 1)%nat then RtoC (sqrt (INR l)) else zero)
             (fun l => if (i =? l + 1)%nat then RtoC (sqrt (INR i)) else zero)
             (fun l => if (l =? i + 1)%nat then RtoC (sqrt (INR l)) else zero)).
  rewrite (sum_prod_comm N
             (fun l => if (j =? l + 1)%nat then RtoC (sqrt (INR j)) else zero)
             (fun l => if (i =? l + 1)%nat then RtoC (sqrt (INR i)) else zero)).
  rewrite (sum_prod_comm N
             (fun l => if (l =? j + 1)%nat then RtoC (sqrt (INR l)) else zero)
             (fun l => if (l =? i + 1)%nat then RtoC (sqrt (INR l)) else zero)).
  rewrite (sum_prod_comm N
             (fun l => if (j =? l + 1)%nat then RtoC (sqrt (INR j)) else zero)
             (fun l => if (l =? i + 1)%nat then RtoC (sqrt (INR l)) else zero)).
  rewrite (sum_prod_comm N
             (fun l => if (l =? j + 1)%nat then RtoC (sqrt (INR l)) else zero)
             (fun l => if (i =? l + 1)%nat then RtoC (sqrt (INR i)) else zero)).
  rewrite (destroy_create_sum N i j Hi Hj), (create_destroy_sum N i j Hi Hj).
  generalize (sum_prod N
    (fun l => if (l =? i + 1)%nat then RtoC (sqrt (INR l)) else zero)
    (fun l => if (j =? l + 1)%nat then RtoC (sqrt (INR j)) else zero)).
  generalize (sum_prod N
    (fun l => if (i =? l + 1)%nat then RtoC (sqrt (INR i)) else zero)
    (fun l => if (l =? j + 1)%nat then RtoC (sqrt (INR l)) else zero)).
  intros s1 s2.
  assert (Hpq : pz * nz = 1 / 2) by lra.
  destruct (Nat.eqb_spec i j) as [-> | Hne].
  - destruct (Nat.ltb_spec (j + 1) N) as [Hlt | Hge].
    + rewrite plus_INR. simpl INR.
      unfold mul, add, sub, zero; simpl. unfold Cmul, Cadd, Csub, Ci, RtoC.
      apply C_eq; simpl; nra.
    + replace (N - 1)%nat with j by (unfold N in *; lia).
      assert (Hlast : pz * nz * INR j = INR j / 2) by (rewrite Hpq; lra).
      unfold mul, add, sub, zero; simpl. unfold Cmul, Cadd, Csub, Ci, RtoC.
      apply C_eq; simpl; [ring | ring_simplify; lra].
  - unfold mul, add, sub, zero; simpl. unfold Cmul, Cadd, Csub, Ci, RtoC.
    apply C_eq; simpl; ring.
Qed.

Lemma fluxonium_commutator_witness :
  exists o,
    Fluxonium.common_ops cosm_order0 sinm_order1
      (fluxonium_sample Fluxonium.full) = Ok o
    /\ entry (msub (matmul (Fluxonium.phi o) (Fluxonium.n o))
                   (matmul (Fluxonium.n o) (Fluxonium.phi o))) 0 0 = Ci
    /\ entry (msub (matmul (Fluxonium.phi o) (Fluxonium.n o))
                   (matmul (Fluxonium.n o) (Fluxonium.phi o))) 2 2
       = (0, - INR 2).
Proof.
  destruct (fluxonium_commutator cosm_order0 sinm_order1
              (fluxonium_sample Fluxonium.full) 1 4)
    as (o & Ho & Hcomm); try reflexivity; try lra.
  exists o. split; [exact Ho|]. rewrite Hcomm.
  split; reflexivity.
Defined.

(** ** Finite sums of complex numbers *)

Ltac complex_ring :=
  unfold mul, add, sub, zero, one, conj; simpl;
  unfold Cmul, Cadd, Csub, Cconj, RtoC; apply C_eq; simpl; ring.

Lemma Csum_add (F G : nat -> C) (l : list nat) :
  fold_right add zero (map (fun x => add (F x) (G x)) l)
  = add (fold_right add zero (map F l)) (fold_right add zero (map G l)).
Proof.
  induction l as [|x xs IH]; cbn [map fold_right].
  - complex_ring.
  - rewrite IH.
    generalize (fold_right add zero (map F xs)).
    generalize (fold_right add zero (map G xs)).
    intros s t. generalize (F x). generalize (G x). intros u v. complex_ring.
Qed.

Lemma Csum_scale (c : C) (F : nat -> C) (l : list nat) :
  fold_right add zero (map (fun x => mul c (F x)) l)
  = mul c (fold_right add zero (map F l)).
Proof.
  induction l as [|x xs IH]; cbn [map fold_right].
  - complex_ring.
  - rewrite IH. generalize (fold_right add zero (map F xs)).
    intros s. generalize (F x). intros u. complex_ring.
Qed.

(** The order of two finite summations can be exchanged. *)
Lemma Csum_swap (F : nat -> nat -> C) (xs ys : list nat) :
  fold_right add zero
    (map (fun x => fold_right add zero (map (fun y => F x y) ys)) xs)
  = fold_right add zero
      (map (fun y => fold_right add zero (map (fun x => F x y) xs)) ys).
Proof.
  induction xs as [|x xs IH]; cbn [map fold_right].
  - induction ys as [|y ys IHy]; cbn [map fold_right];
      [reflexivity | rewrite <- IHy; complex_ring].
  - rewrite IH, <- Csum_add. reflexivity.
Qed.

Lemma sum_prod_add_l (k : nat) (f f' g : nat -> C) :
  sum_prod k (fun l => add (f l) (f' l)) g
  = add (sum_prod k f g) (sum_prod k f' g).
Proof.
  unfold sum_prod. rewrite <- Csum_add. f_equal.
  apply map_ext. intros l. complex_ring.
Qed.

Lemma sum_prod_scale_r (k : nat) (c : C) (f g : nat -> C) :
  sum_prod k f (fun l => mul c (g l)) = mul c (sum_prod k f g).
Proof.
  unfold sum_prod. rewrite <- Csum_scale. f_equal.
  apply map_ext. intros l. complex_ring.
Qed.

(** A sum against a vector with one nonzero entry. *)
Lemma sum_prod_pick (k j : nat) (c : nat -> C) (f : nat -> C) :
  (j < k)%nat ->
  sum_prod k f (fun l => if (l =? j)%nat then c l else zero)
  = mul (f j) (c j).
Proof.
  intros Hj. rewrite sum_prod_comm.
  rewrite (sum_prod_ext _ _ _
             (fun l => if (l =? j)%nat then one else zero)
             (fun l => mul (f l) (c l))).
  - apply (sum_prod_unit k j (fun l => mul (f l) (c l)) Hj).
  - intros l _. destruct (l =? j)%nat; complex_ring.
Qed.

(** ** Projection onto the eigenbasis: shapes, errors and algebra *)

(** The projected operator, entry by entry:
    [P[i, j] = sum_k conj(V[k, i]) * sum_l op[k, l] * V[l, j]]. *)
Lemma transmon_projection_entries
    (eigh : matrix R -> vector R * matrix C)
    (self : SingleChargeTransmon.t) (es : SingleChargeTransmon.eig)
    (op : matrix C) :
  let D := (2 * SingleChargeTransmon.N_max_charge self + 1)%nat in
  let V := SingleChargeTransmon.vecs es in
  SingleChargeTransmon.eig_systems eigh self = Ok es ->
  shape V D D -> shape op D D ->
  SingleChargeTransmon.get_op_in_H_eigenbasis eigh self op
  = Ok (tabulate (SingleChargeTransmon.N self) (SingleChargeTransmon.N self)
          (fun i j =>
             sum_prod D (fun k => conj (entry V k i))
               (fun k => sum_prod D (fun l => entry op k l)
                                    (fun l => entry V l j)))).
Proof.
  intros D V Hes HV Hop.
  pose proof (transmon_eig_systems_valid eigh self es Hes) as Hle. fold D in Hle.
  assert (HD : (0 < D)%nat) by (unfold D; lia).
  set (N := SingleChargeTransmon.N self) in *.
  pose proof (shape_take_cols V D D N HV Hle) as HE.
  pose proof (shape_adjoint _ D N HE ltac:(lia)) as HEh.
  assert (HI : shape (matmul op (take_cols N V)) D N)
    by (apply (shape_matmul _ _ D D N HD); assumption).
  unfold SingleChargeTransmon.get_op_in_H_eigenbasis.
  rewrite Hes, bind_Ok. fold N. fold V.
  assert (Hdot1 : dot op (take_cols N V) = Ok (matmul op (take_cols N V))).
  { unfold dot. rewrite (shape_ncols op D D Hop HD).
    unfold nrows at 2. rewrite (proj1 HE), Nat.eqb_refl, orb_true_r.
    reflexivity. }
  rewrite Hdot1, bind_Ok. unfold dot.
  assert (Hok : ((nrows (conjugate (transpose (take_cols N V))) =? 0)
                 || (ncols (conjugate (transpose (take_cols N V)))
                     =? nrows (matmul op (take_cols N V))))%nat = true).
  { unfold nrows. rewrite (proj1 HEh), (proj1 HI).
    destruct (Nat.eqb_spec N 0) as [HN0 | HN0]; [reflexivity|].
    rewrite (shape_ncols _ N D HEh) by lia.
    rewrite Nat.eqb_refl. reflexivity. }
  rewrite Hok. f_equal.
  rewrite (tabulate_entry V D D HV) at 1 2.
  rewrite (tabulate_entry op D D Hop) at 1.
  rewrite take_cols_tabulate by assumption.
  rewrite (matmul_tabulate D D N) by assumption.
  rewrite adjoint_tabulate by lia.
  rewrite (matmul_tabulate N D N) by assumption.
  reflexivity.
Qed.

(** X16: what [get_op_in_H_eigenbasis] accepts.  When [eig_systems] is
    available with a square ["vecs"] of the working dimension [D], an operator
    of shape [(D, D)] is projected to a matrix of shape [(N, N)]; an operator
    with another number of columns, or (for [N > 0]) of rows, makes [jnp.dot]
    raise [TypeError]. *)
Theorem transmon_projection_shapes
    (eigh : matrix R -> vector R * matrix C)
    (self : SingleChargeTransmon.t) (es : SingleChargeTransmon.eig)
    (op : matrix C) (r c : nat) :
  let D := (2 * SingleChargeTransmon.N_max_charge self + 1)%nat in
  let N := SingleChargeTransmon.N self in
  SingleChargeTransmon.eig_systems eigh self = Ok es ->
  shape (SingleChargeTransmon.vecs es) D D ->
  shape op r c -> (0 < r)%nat ->
  (r = D -> c = D ->
     exists P, SingleChargeTransmon.get_op_in_H_eigenbasis eigh self op = Ok P
               /\ shape P N N)
  /\ (c <> D ->
        exists msg, SingleChargeTransmon.get_op_in_H_eigenbasis eigh self op
                    = Raise (TypeError msg))
  /\ (c = D -> r <> D -> (0 < N)%nat ->
        exists msg, SingleChargeTransmon.get_op_in_H_eigenbasis eigh self op
                    = Raise (TypeError msg)).
Proof.
  intros D N Hes HV Hop Hr.
  pose proof (transmon_eig_systems_valid eigh self es Hes) as Hle.
  fold D in Hle. fold N in Hle.
  assert (HD : (0 < D)%nat) by (unfold D; lia).
  set (V := SingleChargeTransmon.vecs es) in *.
  pose proof (shape_take_cols V D D N HV Hle) as HE.
  pose proof (shape_adjoint _ D N HE ltac:(lia)) as HEh.
  split; [| split].
  - intros -> ->. eexists. split.
    + apply (transmon_projection_entries eigh self es op Hes HV Hop).
    + apply shape_tabulate.
  - intros Hc.
    assert (Hdot1 : exists msg, dot op (take_cols N V) = Raise (TypeError msg)).
    { unfold dot. rewrite (shape_ncols op r c Hop Hr). unfold nrows.
      rewrite (proj1 Hop), (proj1 HE).
      destruct (Nat.eqb_spec r 0); [lia|].
      destruct (Nat.eqb_spec c D); [lia|]. eexists. reflexivity. }
    destruct Hdot1 as [msg Hdot1]. exists msg.
    unfold SingleChargeTransmon.get_op_in_H_eigenbasis.
    rewrite Hes, bind_Ok. fold N. fold V. rewrite Hdot1. reflexivity.
  - intros -> Hrd HN.
    assert (HI : shape (matmul op (take_cols N V)) r N)
      by (apply (shape_matmul _ _ r D N HD); assumption).
    assert (Hdot1 : dot op (take_cols N V) = Ok (matmul op (take_cols N V))).
    { unfold dot. rewrite (shape_ncols op r D Hop Hr). unfold nrows at 2.
      rewrite (proj1 HE), Nat.eqb_refl, orb_true_r. reflexivity. }
    assert (Hdot2 : exists msg,
              dot (conjugate (transpose (take_cols N V)))
                  (matmul op (take_cols N V)) = Raise (TypeError msg)).
    { unfold dot. unfold nrows.
      rewrite (proj1 HEh), (proj1 HI), (shape_ncols _ N D HEh HN).
      destruct (Nat.eqb_spec N 0); [lia|].
      destruct (Nat.eqb_spec D r); [lia|]. eexists. reflexivity. }
    destruct Hdot2 as [msg Hdot2]. exists msg.
    unfold SingleChargeTransmon.get_op_in_H_eigenbasis.
    rewrite Hes, bind_Ok. fold N. fold V. rewrite Hdot1, bind_Ok. exact Hdot2.
Qed.

Lemma sum_prod_add_r (k : nat) (f g g' : nat -> C) :
  sum_prod k f (fun l => add (g l) (g' l))
  = add (sum_prod k f g) (sum_prod k f g').
Proof.
  rewrite sum_prod_comm, sum_prod_add_l.
  rewrite (sum_prod_comm k g f), (sum_prod_comm k g' f). reflexivity.
Qed.

(** [sum_k (sum_l a_l*b_lk) * c_k = sum_l a_l * (sum_k b_lk*c_k)]: the
    associativity of the matrix product, on the entries. *)
Lemma sum_prod_assoc (n m : nat) (a : nat -> C) (b : nat -> nat -> C)
    (c : nat -> C) :
  sum_prod m (fun k => sum_prod n a (fun l => b l k)) c
  = sum_prod n a (fun l => sum_prod m (b l) c).
Proof.
  unfold sum_prod.
  transitivity (fold_right add zero
    (map (fun k => fold_right add zero
            (map (fun l => mul (mul (a l) (b l k)) (c k)) (seq 0 n)))
         (seq 0 m))).
  - f_equal. apply map_ext. intros k.
    rewrite mul_comm, <- Csum_scale. f_equal.
    apply map_ext. intros l. apply mul_comm.
  - rewrite Csum_swap. f_equal. apply map_ext. intros l.
    rewrite <- Csum_scale. f_equal. apply map_ext. intros k. complex_ring.
Qed.

Lemma entry_madd (M P : matrix C) (n m i j : nat) :
  shape M n m -> shape P n m -> (i < n)%nat -> (j < m)%nat ->
  entry (madd M P) i j = add (entry M i j) (entry P i j).
Proof.
  intros HM HP Hi Hj.
  transitivity
    (entry (tabulate n m (fun i j => add (entry M i j) (entry P i j))) i j).
  - f_equal. rewrite <- madd_tabulate.
    rewrite <- (tabulate_entry M n m HM), <- (tabulate_entry P n m HP).
    reflexivity.
  - apply (entry_tabulate n m
             (fun i j => add (entry M i j) (entry P i j))); assumption.
Qed.

(** X17: the projection keeps observables observable: when [eig_systems] is
    available with a square ["vecs"] of the working dimension, a Hermitian
    operator of that dimension is projected to a Hermitian matrix (the
    eigenvectors need not even be orthonormal). *)
Theorem transmon_projection_Hermitian
    (eigh : matrix R -> vector R * matrix C)
    (self : SingleChargeTransmon.t) (es : SingleChargeTransmon.eig)
    (op : matrix C) :
  let D := (2 * SingleChargeTransmon.N_max_charge self + 1)%nat in
  SingleChargeTransmon.eig_systems eigh self = Ok es ->
  shape (SingleChargeTransmon.vecs es) D D ->
  shape op D D -> Hermitian op ->
  exists P, SingleChargeTransmon.get_op_in_H_eigenbasis eigh self op = Ok P
            /\ Hermitian P.
Proof.
  intros D Hes HV Hop Hh. eexists.
  split; [apply (transmon_projection_entries eigh self es op Hes HV Hop)|].
  pose proof (transmon_eig_systems_valid eigh self es Hes) as Hle. fold D in Hle.
  set (V := SingleChargeTransmon.vecs es) in *. fold D.
  apply Hermitian_tabulate. intros i j Hi Hj.
  rewrite conj_sum_prod.
  rewrite (sum_prod_ext _ _ _
             (fun k => sum_prod D (fun l => conj (entry V l i))
                                  (fun l => entry op l k))
             (fun k => entry V k j)).
  - apply sum_prod_assoc.
  - intros k Hk. rewrite conj_conj, conj_sum_prod. f_equal.
    apply sum_prod_ext. intros l Hl.
    rewrite (Hermitian_entry op D l k Hop Hh Hl Hk). reflexivity.
Qed.

(** X18: the projection is additive: for two operators of the working
    dimension, projecting [A + B] gives the sum of the two projections. *)
Theorem transmon_projection_additive
    (eigh : matrix R -> vector R * matrix C)
    (self : SingleChargeTransmon.t) (es : SingleChargeTransmon.eig)
    (A B : matrix C) :
  let D := (2 * SingleChargeTransmon.N_max_charge self + 1)%nat in
  SingleChargeTransmon.eig_systems eigh self = Ok es ->
  shape (SingleChargeTransmon.vecs es) D D ->
  shape A D D -> shape B D D ->
  exists PA PB,
    SingleChargeTransmon.get_op_in_H_eigenbasis eigh self A = Ok PA
    /\ SingleChargeTransmon.get_op_in_H_eigenbasis eigh self B = Ok PB
    /\ SingleChargeTransmon.get_op_in_H_eigenbasis eigh self (madd A B)
       = Ok (madd PA PB).
Proof.
  intros D Hes HV HA HB. eexists. eexists.
  split; [apply (transmon_projection_entries eigh self es A Hes HV HA)|].
  split; [apply (transmon_projection_entries eigh self es B Hes HV HB)|].
  rewrite (transmon_projection_entries eigh self es (madd A B) Hes HV
             (shape_madd A B D D HA HB)).
  rewrite madd_tabulate. f_equal. fold D.
  apply tabulate_ext. intros i j _ _.
  rewrite <- sum_prod_add_r. apply sum_prod_ext. intros k Hk. f_equal.
  rewrite <- sum_prod_add_l. apply sum_prod_ext. intros l Hl. f_equal.
  apply (entry_madd A B D D); assumption.
Qed.

Lemma getitem_Ok_inv (d : gmap string R) (key : string) (v : R) :
  getitem d key = Ok v -> d !! key = Some v.
Proof.
  unfold getitem. destruct (d !! key); intros Hv; [| discriminate].
  injection Hv as ->. reflexivity.
Qed.

(** A transmon whose [get_H_full] returns has the three keys and a valid
    truncation. *)
Lemma transmon_get_H_full_inv (self : SingleChargeTransmon.t) (H : matrix R) :
  SingleChargeTransmon.get_H_full self = Ok H ->
  exists Ec Ej ng,
    SingleChargeTransmon.params self !! "Ec" = Some Ec
    /\ SingleChargeTransmon.params self !! "Ej" = Some Ej
    /\ SingleChargeTransmon.params self !! "ng" = Some ng
    /\ (SingleChargeTransmon.N self
          <= 2 * SingleChargeTransmon.N_max_charge self + 1)%nat.
Proof.
  unfold SingleChargeTransmon.get_H_full. intros HH.
  apply bind_Ok_inv in HH. destruct HH as (ng & Hng & HH).
  apply bind_Ok_inv in HH. destruct HH as (Ec & HEc & HH).
  apply bind_Ok_inv in HH. destruct HH as (Ej & HEj & HH).
  apply bind_Ok_inv in HH. destruct HH as (o & Ho & _).
  exists Ec, Ej, ng.
  repeat split; try (apply getitem_Ok_inv; assumption).
  unfold SingleChargeTransmon.linear_ops in Ho.
  destruct (Nat.le_gt_cases (SingleChargeTransmon.N self)
              (2 * SingleChargeTransmon.N_max_charge self + 1)) as [Hle | Hgt];
    [exact Hle|].
  rewrite (transmon_common_ops_Raise self Hgt) in Ho. discriminate.
Qed.

Lemma transmon_get_H_full_shape (self : SingleChargeTransmon.t) (H : matrix R) :
  let D := (2 * SingleChargeTransmon.N_max_charge self + 1)%nat in
  SingleChargeTransmon.get_H_full self = Ok H -> shape H D D.
Proof.
  intros D HH.
  destruct (transmon_get_H_full_inv self H HH)
    as (Ec & Ej & ng & HEc & HEj & Hng & Hle).
  rewrite (transmon_H_full_tabulate self Ec Ej ng HEc HEj Hng Hle) in HH.
  injection HH as <-. apply shape_tabulate.
Qed.

Lemma shape_to_complex (M : matrix R) (n m : nat) :
  shape M n m -> shape (to_complex M) n m.
Proof.
  intros HM. rewrite (tabulate_entry M n m HM), to_complex_tabulate.
  apply shape_tabulate.
Qed.

(** X19: projecting the Hamiltonian onto its own eigenbasis gives the
    diagonal matrix of the first [N] eigenvalues.  The diagonalizer's contract
    is [H @ vecs = vecs @ diag(vals)] with orthonormal columns. *)
Theorem transmon_projection_of_H
    (eigh : matrix R -> vector R * matrix C)
    (self : SingleChargeTransmon.t) (es : SingleChargeTransmon.eig)
    (H : matrix R) :
  let D := (2 * SingleChargeTransmon.N_max_charge self + 1)%nat in
  let V := SingleChargeTransmon.vecs es in
  let vals := SingleChargeTransmon.vals es in
  SingleChargeTransmon.eig_systems eigh self = Ok es ->
  SingleChargeTransmon.get_H_full self = Ok H ->
  shape V D D -> length vals = D ->
  matmul (to_complex H) V = matmul V (diag (map RtoC vals)) ->
  orthonormal_columns V ->
  SingleChargeTransmon.get_op_in_H_eigenbasis eigh self (to_complex H)
  = Ok (diag (map RtoC (firstn (SingleChargeTransmon.N self) vals))).
Proof.
  intros D V vals Hes HH HV Hlen Heig Horth.
  pose proof (transmon_eig_systems_valid eigh self es Hes) as Hle. fold D in Hle.
  assert (HD : (0 < D)%nat) by (unfold D; lia).
  pose proof (shape_to_complex H D D (transmon_get_H_full_shape self H HH))
    as HHc.
  rewrite (transmon_projection_entries eigh self es (to_complex H) Hes HV HHc).
  fold D. fold V. f_equal.
  set (N := SingleChargeTransmon.N self) in *.
  set (Hc := to_complex H) in *.
  (* the eigen-equation on the entries *)
  assert (Hcol : forall k j, (k < D)%nat -> (j < D)%nat ->
    sum_prod D (fun l => entry Hc k l) (fun l => entry V l j)
    = mul (RtoC (nth j vals 0)) (entry V k j)).
  { intros k j Hk Hj.
    apply (f_equal (fun M => entry M k j)) in Heig.
    rewrite (tabulate_entry Hc D D HHc) in Heig at 1.
    rewrite (tabulate_entry V D D HV) in Heig at 1 2.
    unfold diag in Heig. rewrite length_map, Hlen in Heig.
    rewrite !matmul_tabulate in Heig by assumption.
    rewrite !entry_tabulate in Heig by assumption.
    transitivity (sum_prod D (entry Hc k) (fun l => entry V l j));
      [reflexivity|].
    rewrite Heig.
    rewrite (sum_prod_pick D j (fun l => nth l (map RtoC vals) zero)
               (fun l => entry V k l) Hj).
    change (zero : C) with (RtoC 0). rewrite map_nth. apply mul_comm. }
  assert (Hdot : forall i j, (i < D)%nat -> (j < D)%nat ->
    sum_prod D (fun l => conj (entry V l i)) (fun l => entry V l j)
    = if (i =? j)%nat then one else zero).
  { intros i j Hi Hj. rewrite <- (vdot_col V D D) by assumption.
    apply Horth; rewrite (shape_ncols V D D); assumption. }
  unfold diag. rewrite length_map, length_firstn, Hlen, Nat.min_l by exact Hle.
  apply tabulate_ext. intros i j Hi Hj.
  rewrite (sum_prod_ext _ _ _
             (fun k => conj (entry V k i))
             (fun k => mul (RtoC (nth j vals 0)) (entry V k j))).
  - rewrite sum_prod_scale_r, Hdot by lia.
    destruct (Nat.eqb_spec i j) as [-> | _].
    + change (zero : C) with (RtoC 0).
      rewrite map_nth, nth_firstn.
      destruct (Nat.ltb_spec j N); [| lia]. complex_ring.
    + complex_ring.
  - intros k Hk. f_equal. apply Hcol; lia.
Qed.

(** X20: when [eig_systems] cannot be computed, the projection raises the
    same exception, whatever the operator: the [TypeError] of [get_H_linear]
    when [use_linear] is set, otherwise the [KeyError] of the first missing
    key among ["ng"], ["Ec"], ["Ej"], otherwise the [AssertionError] of an
    invalid truncation. *)
Theorem transmon_projection_errors
    (eigh : matrix R -> vector R * matrix C)
    (self : SingleChargeTransmon.t) (op : matrix C) :
  if SingleChargeTransmon.use_linear self
  then SingleChargeTransmon.get_op_in_H_eigenbasis eigh self op
       = Raise (TypeError "'NotImplementedType' object is not callable")
  else
    match first_missing (SingleChargeTransmon.params self) ["ng"; "Ec"; "Ej"] with
    | Some k => SingleChargeTransmon.get_op_in_H_eigenbasis eigh self op
                = Raise (KeyError k)
    | None =>
        if (SingleChargeTransmon.N self
              <=? 2 * SingleChargeTransmon.N_max_charge self + 1)%nat
        then exists es, SingleChargeTransmon.eig_systems eigh self = Ok es
        else SingleChargeTransmon.get_op_in_H_eigenbasis eigh self op
             = Raise AssertionError
    end.
Proof.
  unfold SingleChargeTransmon.get_op_in_H_eigenbasis,
    SingleChargeTransmon.eig_systems.
  destruct (SingleChargeTransmon.use_linear self); [reflexivity|].
  unfold first_missing, SingleChargeTransmon.get_H_full,
    SingleChargeTransmon.linear_ops, SingleChargeTransmon.common_ops.
  case_key (SingleChargeTransmon.params self) "ng" Hng; [| reflexivity].
  case_key (SingleChargeTransmon.params self) "Ec" HEc; [| reflexivity].
  case_key (SingleChargeTransmon.params self) "Ej" HEj; [| reflexivity].
  destruct (SingleChargeTransmon.N self
              <=? 2 * SingleChargeTransmon.N_max_charge self + 1)%nat.
  - eexists. reflexivity.
  - reflexivity.
Qed.

(** ** The sample diagonalizer *)

(** What [eigh_diagonal] returns for a transmon: the standard basis, which is
    orthonormal, and as many values as the working dimension. *)
Lemma eigh_diagonal_eig_systems (self : SingleChargeTransmon.t) (H : matrix R) :
  let D := (2 * SingleChargeTransmon.N_max_charge self + 1)%nat in
  let es := {| SingleChargeTransmon.vals := fst (eigh_diagonal H);
               SingleChargeTransmon.vecs := snd (eigh_diagonal H) |} in
  SingleChargeTransmon.use_linear self = false ->
  SingleChargeTransmon.get_H_full self = Ok H ->
  SingleChargeTransmon.eig_systems eigh_diagonal self = Ok es
  /\ shape (SingleChargeTransmon.vecs es) D D
  /\ length (SingleChargeTransmon.vals es) = D
  /\ orthonormal_columns (SingleChargeTransmon.vecs es).
Proof.
  intros D es Hlin HH.
  pose proof (transmon_get_H_full_shape self H HH) as [Hlen _]. fold D in Hlen.
  split; [| split; [| split]].
  - unfold SingleChargeTransmon.eig_systems. rewrite Hlin, HH. reflexivity.
  - unfold es, eigh_diagonal; simpl. rewrite Hlen. apply (shape_eye D 0).
  - unfold es, eigh_diagonal; simpl.
    rewrite length_map, length_seq. exact Hlen.
  - unfold es, eigh_diagonal; simpl. apply orthonormal_columns_eye.
Qed.

(** On a square matrix without off-diagonal entries, [eigh_diagonal] solves
    the eigenvalue equation [H @ vecs = vecs @ diag(vals)]. *)
Lemma eigh_diagonal_eigen (H : matrix R) (n : nat) :
  shape H n n ->
  (forall i j, (i < n)%nat -> (j < n)%nat -> i <> j -> entry H i j = 0) ->
  matmul (to_complex H) (snd (eigh_diagonal H))
  = matmul (snd (eigh_diagonal H)) (diag (map RtoC (fst (eigh_diagonal H)))).
Proof.
  intros HH Hoff. pose proof HH as [Hlen _].
  unfold eigh_diagonal, fst, snd, identity, diag.
  rewrite !length_map, length_seq, Hlen.
  destruct n as [|n]; [destruct H; [reflexivity | discriminate]|].
  rewrite (tabulate_entry H (S n) (S n) HH) at 1.
  rewrite to_complex_tabulate, eye_0_tabulate.
  rewrite !matmul_tabulate by lia.
  apply tabulate_ext. intros i j Hi Hj.
  rewrite (sum_prod_ext _ _ _
             (fun l => RtoC (entry H i l))
             (fun l => if (l =? j)%nat then one else zero))
    by (intros l _; rewrite (Nat.eqb_sym j l); reflexivity).
  rewrite (sum_prod_pick (S n) j (fun _ => one)
             (fun l => RtoC (entry H i l)) Hj).
  rewrite (sum_prod_unit (S n) i
             (fun l => if (l =? j)%nat
                       then nth l (map RtoC
                              (map (fun k => entry H k k) (seq 0 (S n)))) zero
                       else zero) Hi).
  destruct (Nat.eqb_spec i j) as [-> | Hne].
  - change (zero : C) with (RtoC 0).
    rewrite map_nth, (nth_map_seq (fun k => entry H k k)) by assumption.
    complex_ring.
  - rewrite (Hoff i j Hi Hj Hne). complex_ring.
Qed.

(** A transmon with the sample parameters and a valid truncation has a
    Hamiltonian. *)
Lemma transmon_get_H_full_cases_sample (self : SingleChargeTransmon.t) :
  SingleChargeTransmon.params self = transmon_params ->
  (SingleChargeTransmon.N self
     <=? 2 * SingleChargeTransmon.N_max_charge self + 1)%nat = true ->
  exists H, SingleChargeTransmon.get_H_full self = Ok H.
Proof.
  intros Hp Hle. apply Nat.leb_le in Hle. eexists.
  apply (transmon_get_H_full_Ok self 1 10 0.25); try assumption;
    rewrite Hp; reflexivity.
Qed.

Lemma transmon_projection_shapes_witness :
  (exists P,
     SingleChargeTransmon.get_op_in_H_eigenbasis eigh_diagonal transmon_valid
       (identity 3) = Ok P /\ shape P 2 2)
  /\ exists msg,
       SingleChargeTransmon.get_op_in_H_eigenbasis eigh_diagonal transmon_valid
         [[one; one]] = Raise (TypeError msg).
Proof.
  destruct (transmon_get_H_full_cases_sample transmon_valid) as [H HH];
    [reflexivity | reflexivity |].
  destruct (eigh_diagonal_eig_systems transmon_valid H eq_refl HH)
    as (Hes & HV & _ & _).
  split.
  - apply (transmon_projection_shapes eigh_diagonal transmon_valid _
             (identity 3) 3 3 Hes HV (shape_eye 3 0)); try reflexivity.
    lia.
  - assert (Hrow : shape [[one; one]] 1 2)
      by (split; [reflexivity | repeat constructor]).
    destruct (transmon_projection_shapes eigh_diagonal transmon_valid _
                [[one; one]] 1 2 Hes HV Hrow ltac:(lia)) as (_ & Hbad & _).
    apply Hbad. simpl. lia.
Defined.

Lemma transmon_projection_Hermitian_witness :
  exists P,
    SingleChargeTransmon.get_op_in_H_eigenbasis eigh_diagonal transmon_valid
      (identity 3) = Ok P /\ Hermitian P.
Proof.
  destruct (transmon_get_H_full_cases_sample transmon_valid) as [H HH];
    [reflexivity | reflexivity |].
  destruct (eigh_diagonal_eig_systems transmon_valid H eq_refl HH)
    as (Hes & HV & _ & _).
  apply (transmon_projection_Hermitian eigh_diagonal transmon_valid _
           (identity 3) Hes HV (shape_eye 3 0)).
  apply Hermitian_eye_0.
Defined.

Lemma transmon_projection_additive_witness :
  exists PA PB,
    SingleChargeTransmon.get_op_in_H_eigenbasis eigh_diagonal transmon_valid
      (identity 3) = Ok PA
    /\ SingleChargeTransmon.get_op_in_H_eigenbasis eigh_diagonal transmon_valid
         (identity 3) = Ok PB
    /\ SingleChargeTransmon.get_op_in_H_eigenbasis eigh_diagonal transmon_valid
         (madd (identity 3) (identity 3)) = Ok (madd PA PB).
Proof.
  destruct (transmon_get_H_full_cases_sample transmon_valid) as [H HH];
    [reflexivity | reflexivity |].
  destruct (eigh_diagonal_eig_systems transmon_valid H eq_refl HH)
    as (Hes & HV & _ & _).
  apply (transmon_projection_additive eigh_diagonal transmon_valid _
           (identity 3) (identity 3) Hes HV (shape_eye 3 0) (shape_eye 3 0)).
Defined.

Lemma transmon_projection_of_H_witness :
  exists H vals,
    SingleChargeTransmon.get_H_full transmon_no_junction = Ok H
    /\ SingleChargeTransmon.get_op_in_H_eigenbasis eigh_diagonal
         transmon_no_junction (to_complex H)
       = Ok (diag (map RtoC (firstn 2 vals))).
Proof.
  pose proof (transmon_H_full_tabulate transmon_no_junction 1 0 0.25
                eq_refl eq_refl eq_refl ltac:(simpl; lia)) as HH.
  cbv zeta in HH. set (H := tabulate _ _ _) in HH.
  destruct (eigh_diagonal_eig_systems transmon_no_junction H eq_refl HH)
    as (Hes & HV & Hlen & Horth).
  exists H, (fst (eigh_diagonal H)). split; [exact HH|].
  apply (transmon_projection_of_H eigh_diagonal transmon_no_junction _ H
           Hes HH HV Hlen); [| exact Horth].
  apply (eigh_diagonal_eigen H 3).
  - apply shape_tabulate.
  - intros i j Hi Hj Hne. unfold H. rewrite entry_tabulate by assumption.
    destruct (Nat.eqb_spec i j); [contradiction|]. ring.
Defined.
